(** * KeySound: sound-pack engine, IPC mock and WAV encoder

    Shallow embeddings of
    - [encodeWav] of scripts/generate-sounds.mjs (identical copy in
      scripts/create-piano-real.mjs), over byte lists;
    - [writeWav] of the piano sample script (symmetric 16-bit scaling), and
      [pitchShift], [fadeOut] and the variant loop of
      scripts/create-piano-real.mjs;
    - the [invoke] handler of the Tauri IPC mock used by the e2e tests;
    - the sound-pack back end (resolver, volume compositing, pack lifecycle,
      registry ordering), whose Rust sources are not part of the analysed
      files: those definitions are modelled from the specification. *)

From Stdlib Require Import ZArith QArith Qround Qminmax Qabs Qpower String Ascii List Bool Lia Lqa.
From Stdlib Require Import Sorted Mergesort Orders Permutation DecimalString DecimalNat Finite.
Import ListNotations.

(** ** WAV encoding (scripts/generate-sounds.mjs, [encodeWav]) *)
Module Wav.
Open Scope Z_scope.

(** A Node [Buffer]: a list of bytes, each in [0, 255]. *)
Definition Buffer := list Z.

(** [Buffer.alloc(n)]: [n] zero bytes.  The allocation limit of the Node
    runtime ([buffer.constants.MAX_LENGTH]) is not modelled. *)
Definition alloc (n : nat) : Buffer := repeat 0 n.

(** Overwrite the bytes of [buf] from offset [off] with [bs]. *)
Definition splice (buf : Buffer) (off : nat) (bs : list Z) : Buffer :=
  firstn off buf ++ bs ++ skipn (off + length bs) buf.

(** Little-endian two's-complement bytes of [v], [k] of them
    ([value & 0xff], [value >>> 8], ...). *)
Fixpoint le_bytes (v : Z) (k : nat) : list Z :=
  match k with
  | O => []
  | S k' => Z.land v 255 :: le_bytes (Z.shiftr v 8) k'
  end.

(** [buf.writeXIntYLE(value, offset)]: throws [ERR_OUT_OF_RANGE] when
    [value] is outside [lo, hi], and when the field does not fit in the
    buffer; [None] stands for the thrown error. *)
Definition write_int (lo hi : Z) (k : nat) (buf : Buffer) (value : Z) (off : nat)
  : option Buffer :=
  if (lo <=? value) && (value <=? hi) && Nat.leb (off + k) (length buf)
  then Some (splice buf off (le_bytes value k))
  else None.

Definition writeUInt32LE := write_int 0 (2 ^ 32 - 1) 4.
Definition writeUInt16LE := write_int 0 (2 ^ 16 - 1) 2.
Definition writeInt16LE := write_int (- 2 ^ 15) (2 ^ 15 - 1) 2.

Definition ascii_bytes (s : string) : list Z :=
  map (fun c => Z.of_nat (nat_of_ascii c)) (list_ascii_of_string s).

(** [buf.write(string, offset)] for an ASCII string: an offset past the end
    throws, a string that does not fit is truncated. *)
Definition write_str (buf : Buffer) (s : string) (off : nat) : option Buffer :=
  if Nat.leb off (length buf)
  then Some (splice buf off (firstn (length buf - off) (ascii_bytes s)))
  else None.

(** Little-endian unsigned value of a byte list, and the two readers used
    to state properties of the produced buffer. *)
Fixpoint from_le (bs : list Z) : Z :=
  match bs with
  | [] => 0
  | b :: r => b + 256 * from_le r
  end.

Definition readUInt32LE (buf : Buffer) (off : nat) : Z :=
  from_le (firstn 4 (skipn off buf)).

Definition readInt16LE (buf : Buffer) (off : nat) : Z :=
  let u := from_le (firstn 2 (skipn off buf)) in
  if 2 ^ 15 <=? u then u - 2 ^ 16 else u.

(** [Math.round]: the nearest integer, halves rounded up. *)
Definition js_round (x : Q) : Z := Qfloor (x + (1 # 2))%Q.

(** Samples are finite JS numbers, modelled as rationals.
    [Math.max(-1, Math.min(1, samples[i]))]. *)
Definition clamp_sample (x : Q) : Q := Qmax (-1) (Qmin 1 x)%Q.

(** [const val = s < 0 ? s * 32768 : s * 32767; Math.round(val)]. *)
Definition to_int16 (x : Q) : Z :=
  let s := clamp_sample x in
  let val := if Qle_bool 0 s then (s * 32767)%Q else (s * 32768)%Q in
  js_round val.

Definition SAMPLE_RATE : Z := 44100.
Definition BIT_DEPTH : Z := 16.

Notation "'let*' x := a 'in' b" :=
  (match a with Some x => b | None => None end)
  (at level 200, x name, a at level 100, b at level 200).

(** [for (let i = 0; i < samples.length; i++)
       buffer.writeInt16LE(Math.round(val), 44 + i * 2);] *)
Fixpoint write_samples (buffer : Buffer) (i : nat) (samples : list Q)
  : option Buffer :=
  match samples with
  | [] => Some buffer
  | x :: rest =>
      let* buffer := writeInt16LE buffer (to_int16 x) (44 + i * 2) in
      write_samples buffer (S i) rest
  end.

Definition encodeWav (samples : list Q) (sampleRate : Z) : option Buffer :=
  let numChannels := 1 in
  let bytesPerSample := BIT_DEPTH / 8 in
  let dataSize := Z.of_nat (length samples) * bytesPerSample in
  let buffer := alloc (Z.to_nat (44 + dataSize)) in
  let* buffer := write_str buffer "RIFF" 0 in
  let* buffer := writeUInt32LE buffer (36 + dataSize) 4 in
  let* buffer := write_str buffer "WAVE" 8 in
  let* buffer := write_str buffer "fmt " 12 in
  let* buffer := writeUInt32LE buffer 16 16 in
  let* buffer := writeUInt16LE buffer 1 20 in
  let* buffer := writeUInt16LE buffer numChannels 22 in
  let* buffer := writeUInt32LE buffer sampleRate 24 in
  let* buffer := writeUInt32LE buffer (sampleRate * numChannels * bytesPerSample) 28 in
  let* buffer := writeUInt16LE buffer (numChannels * bytesPerSample) 32 in
  let* buffer := writeUInt16LE buffer BIT_DEPTH 34 in
  let* buffer := write_str buffer "data" 36 in
  let* buffer := writeUInt32LE buffer dataSize 40 in
  write_samples buffer 0 samples.

(** The 44-byte header [encodeWav] writes, for the RIFF size [riff], the
    data size [data] and the sample rate [sr] (mono, 16 bits). *)
Definition header (riff data sr : Z) : list Z :=
  ascii_bytes "RIFF" ++ le_bytes riff 4 ++ ascii_bytes "WAVE" ++
  ascii_bytes "fmt " ++ le_bytes 16 4 ++ le_bytes 1 2 ++ le_bytes 1 2 ++
  le_bytes sr 4 ++ le_bytes (sr * 2) 4 ++ le_bytes 2 2 ++ le_bytes 16 2 ++
  ascii_bytes "data" ++ le_bytes data 4.

Definition sample_bytes (samples : list Q) : list Z :=
  concat (map (fun x => le_bytes (to_int16 x) 2) samples).

End Wav.

(** ** Double-precision arithmetic

    JS numbers are IEEE 754 doubles; an arithmetic operation returns its
    exact result rounded to nearest, ties to even. *)
Module Binary64.
Open Scope Z_scope.

(** [2^e] for any integer [e]. *)
Definition pow2 (e : Z) : Q := Qpower 2 e.

(** The binade of a positive [a]: [pow2 (exponent a) <= a < pow2 (exponent a + 1)]. *)
Definition exponent (a : Q) : Z :=
  let e := Z.log2 (Qnum a) - Z.log2 (Zpos (Qden a)) in
  if Qle_bool (pow2 e) a then e else e - 1.

(** Rounding to the nearest integer, ties to even. *)
Definition round_half_even (x : Q) : Z :=
  let f := Qfloor x in
  match Qcompare (x - inject_Z f) (1 # 2) with
  | Lt => f
  | Gt => f + 1
  | Eq => if Z.even f then f else f + 1
  end.

(** Rounding to the nearest double with ties to even and an unbounded
    exponent range: 53 significant bits, quantum at least [2^-1074]
    (subnormals). *)
Definition b64_round (x : Q) : Q :=
  if Qeq_bool x 0 then 0 else
  let a := Qabs x in
  let q := Z.max (exponent a - 52) (-1074) in
  let y := (inject_Z (round_half_even (a / pow2 q)) * pow2 q)%Q in
  if Qle_bool 0 x then y else (- y)%Q.

(** The double the JS engine computes for an exact result [x]; [None] is an
    overflow to an infinity (the rounded magnitude reaches [2^1024]). *)
Definition b64 (x : Q) : option Q :=
  let y := b64_round x in
  if Qle_bool (pow2 1024) (Qabs y) then None else Some y.

End Binary64.

(** ** The other audio scripts

    [writeWav] of scripts/trim-piano (the trimming script), and [pitchShift],
    [fadeOut] and the per-variant pipeline of scripts/create-piano-real.mjs,
    whose [encodeWav] is the one above.  Samples are exact rationals, as for
    [encodeWav]: the float32 rounding of the typed arrays is not modelled.
    The index arithmetic that decides lengths and reads
    ([samples.length / ratio], [i * ratio], [SAMPLE_RATE * v.trim]) is
    rounded to doubles ([Binary64]); in [fadeOut] with the [ms = 30] of
    [main], [44100 * 30 / 1000 = 1323] is exact. *)
Module Audio.
Import Wav Binary64.
Open Scope Z_scope.

(** [sample = Math.max(-1, Math.min(1, sample));
     const intSample = Math.round(sample * 32767);] *)
Definition to_int16_sym (x : Q) : Z := js_round (clamp_sample x * 32767)%Q.

(** [for (let i = 0; i < numSamples; i++)
       buffer.writeInt16LE(intSample, 44 + i * 2);] *)
Fixpoint write_samples_sym (buffer : Buffer) (i : nat) (samples : list Q)
  : option Buffer :=
  match samples with
  | [] => Some buffer
  | x :: rest =>
      let* buffer := writeInt16LE buffer (to_int16_sym x) (44 + i * 2) in
      write_samples_sym buffer (S i) rest
  end.

(** [writeWav(filePath, samples, sampleRate)]: the buffer it hands to
    [writeFileSync]; [None] stands for a thrown range error. *)
Definition writeWav (samples : list Q) (sampleRate : Z) : option Buffer :=
  let numSamples := Z.of_nat (length samples) in
  let bytesPerSample := 2 in
  let dataSize := numSamples * bytesPerSample in
  let buffer := alloc (Z.to_nat (44 + dataSize)) in
  let* buffer := write_str buffer "RIFF" 0 in
  let* buffer := writeUInt32LE buffer (36 + dataSize) 4 in
  let* buffer := write_str buffer "WAVE" 8 in
  let* buffer := write_str buffer "fmt " 12 in
  let* buffer := writeUInt32LE buffer 16 16 in
  let* buffer := writeUInt16LE buffer 1 20 in
  let* buffer := writeUInt16LE buffer 1 22 in
  let* buffer := writeUInt32LE buffer sampleRate 24 in
  let* buffer := writeUInt32LE buffer (sampleRate * bytesPerSample) 28 in
  let* buffer := writeUInt16LE buffer bytesPerSample 32 in
  let* buffer := writeUInt16LE buffer 16 34 in
  let* buffer := write_str buffer "data" 36 in
  let* buffer := writeUInt32LE buffer dataSize 40 in
  write_samples_sym buffer 0 samples.

(** The sample bytes [writeWav] writes after the header. *)
Definition sample_bytes_sym (samples : list Q) : list Z :=
  concat (map (fun x => le_bytes (to_int16_sym x) 2) samples).

(** [samples[z]] for an integer index; [None] is a read outside the array. *)
Definition nth_z (l : list Q) (z : Z) : option Q :=
  if z <? 0 then None else nth_error l (Z.to_nat z).

Fixpoint all_some (l : list (option Q)) : option (list Q) :=
  match l with
  | [] => Some []
  | Some x :: r => option_map (cons x) (all_some r)
  | None :: _ => None
  end.

(** [new Float32Array(len)] for an integer [len]: [ToIndex] throws a range
    error for [len < 0], and V8 throws one when the byte length [4 * len]
    exceeds [kMaxByteLength], [2^53 - 1] on 64-bit targets.  Running out of
    memory is not modelled. *)
Definition MAX_BYTE_LENGTH : Z := 2 ^ 53 - 1.

Definition f32_alloc_ok (len : Z) : bool :=
  (0 <=? len) && (len * 4 <=? MAX_BYTE_LENGTH).

(** [Math.floor(samples.length / ratio)] for a length [n]: the quotient is a
    double; [None] is an overflow to [Infinity]. *)
Definition pitch_len (n : Z) (ratio : Q) : option Z :=
  option_map Qfloor (b64 (inject_Z n / ratio)).

(** The body of the [pitchShift] loop for index [i]:
    [srcIdx = i * ratio] is a double ([None] on overflow), [idx0 + 1] and
    [samples.length - 1] are exact, and so is [frac = srcIdx - idx0] (the
    fractional part of a double is a double).  [None] is also a read
    outside [samples] (an [undefined] giving a [NaN] sample in JS). *)
Definition pitch_sample (samples : list Q) (ratio : Q) (i : nat) : option Q :=
  let* srcIdx := b64 (inject_Z (Z.of_nat i) * ratio) in
  let idx0 := Qfloor srcIdx in
  let idx1 := Z.min (idx0 + 1) (Z.of_nat (length samples) - 1) in
  let frac := (srcIdx - inject_Z idx0)%Q in
  match nth_z samples idx0, nth_z samples idx1 with
  | Some a, Some b => Some (a * (1 - frac) + b * frac)%Q
  | _, _ => None
  end.

(** [pitchShift(samples, ratio)].  [None] is a range error thrown by
    [new Float32Array(newLen)] (or a [NaN] read, see [pitch_sample]).  For
    [ratio <= 0] the length [Math.floor(samples.length / ratio)] is negative
    or infinite and the allocation throws, unless [samples] is empty (length
    [-0] or [NaN], both giving an empty array).  For [ratio > 0] it throws
    when the quotient overflows to [Infinity] or [newLen] is too large for a
    [Float32Array]. *)
Definition pitchShift (samples : list Q) (ratio : Q) : option (list Q) :=
  if Qle_bool ratio 0 then
    match samples with [] => Some [] | _ => None end
  else
    match pitch_len (Z.of_nat (length samples)) ratio with
    | None => None
    | Some newLen =>
        if f32_alloc_ok newLen
        then all_some (map (pitch_sample samples ratio) (seq 0 (Z.to_nat newLen)))
        else None
    end.

(** [fadeOut(samples, ms)]: the loop scales each index [i] in
    [[start, samples.length)] once, by [1 - (i - start) / fadeSamples],
    and reads no other index; the array is updated in place. *)
Definition fadeOut (samples : list Q) (ms : Q) : list Q :=
  let fadeSamples := Qfloor (inject_Z SAMPLE_RATE * ms / 1000) in
  let start := Z.max 0 (Z.of_nat (length samples) - fadeSamples) in
  map (fun '(i, x) =>
         if start <=? Z.of_nat i
         then (x * (1 - inject_Z (Z.of_nat i - start) / inject_Z fadeSamples))%Q
         else x)
      (combine (seq 0 (length samples)) samples).

(** [if (shifted.length > trimSamples) shifted = shifted.slice(0, trimSamples);]
    ([slice] with a negative end counts from the end). *)
Definition trim_to (shifted : list Q) (trimSamples : Z) : list Q :=
  if Z.of_nat (length shifted) >? trimSamples
  then firstn (Z.to_nat (if trimSamples <? 0
                         then Z.of_nat (length shifted) + trimSamples
                         else trimSamples)) shifted
  else shifted.

(** One iteration of the loop over [variants] in [main]: the WAV buffer
    written for the variant with pitch ratio [ratio] and duration [trim].
    [trimSamples = Math.floor(SAMPLE_RATE * v.trim)] floors the double
    product; when it overflows to [+Infinity] nothing is sliced off, and at
    [-Infinity] [slice(0, -Infinity)] is empty. *)
Definition make_variant (pcm : list Q) (ratio trim : Q) : option Buffer :=
  let* shifted := pitchShift pcm ratio in
  let shifted := match b64 (inject_Z SAMPLE_RATE * trim) with
                 | Some t => trim_to shifted (Qfloor t)
                 | None => if Qle_bool 0 trim then shifted else []
                 end in
  let shifted := fadeOut shifted 30 in
  encodeWav shifted SAMPLE_RATE.

(** The [variants] table of [main]: file name, pitch ratio and duration,
    each number literal read as the double nearest to it. *)
Definition variants : list (string * Q * Q) :=
  [("keydown.wav", b64_round (15 # 10), b64_round (35 # 100));
   ("keydown-space.wav", b64_round 1, b64_round (8 # 10));
   ("keydown-enter.wav", b64_round (12 # 10), b64_round (6 # 10));
   ("keydown-modifier.wav", b64_round 2, b64_round (2 # 10));
   ("keydown-backspace.wav", b64_round (13 # 10), b64_round (3 # 10))]%string.

End Audio.

(** ** The Tauri IPC mock of the e2e tests ([injectTauriMock]) *)
Module Mock.
Open Scope string_scope.

Record PackInfo := {
  pi_id : string;
  pi_name : string;
  pi_author : string;
  pi_description : string;
  pi_source : option string
}.

Record SlotInfo := {
  si_slot : string;
  si_label : string;
  si_file_name : option string
}.

(** [MockState]; [customSlots] is a JS object, kept as an association list. *)
Record MockState := {
  enabled : bool;
  volume : Q;
  activePackId : string;
  packs : list PackInfo;
  customSlots : list (string * list SlotInfo);
  nextCustomId : string
}.

(** [case "toggle_sound": state.enabled = !state.enabled; return state.enabled;] *)
Definition toggle_sound (state : MockState) : bool * MockState :=
  let state' := {| enabled := negb (enabled state);
                   volume := volume state;
                   activePackId := activePackId state;
                   packs := packs state;
                   customSlots := customSlots state;
                   nextCustomId := nextCustomId state |} in
  (enabled state', state').

(** [case "get_enabled": return state.enabled;] *)
Definition get_enabled (state : MockState) : bool * MockState :=
  (enabled state, state).

Definition DEFAULT_PACKS : list PackInfo :=
  [ {| pi_id := "default"; pi_name := "HHKB"; pi_author := "KeySound";
       pi_description := "Default"; pi_source := None |};
    {| pi_id := "my-custom"; pi_name := "My Custom"; pi_author := "You";
       pi_description := EmptyString; pi_source := Some "user" |};
    {| pi_id := "cherry-mx"; pi_name := "Cherry MX Blue"; pi_author := "KeySound";
       pi_description := "Clicky"; pi_source := None |} ].

Definition ALL_SLOTS : list (string * string) :=
  [ ("default", "Default Key"); ("space", "Space"); ("enter", "Enter");
    ("modifier", "Modifiers"); ("backspace", "Backspace / Delete") ].

(** [defaultState()] *)
Definition defaultState : MockState := {|
  enabled := true;
  volume := 4 # 5;
  activePackId := "default";
  packs := DEFAULT_PACKS;
  customSlots :=
    [ ("my-custom",
       map (fun '(slot, label) =>
              {| si_slot := slot; si_label := label;
                 si_file_name := if String.eqb slot "default"
                                 then Some "click.wav" else None |})
           ALL_SLOTS) ];
  nextCustomId := "new-pack-1"
|}.

(** *** The [invoke] handler of [injectTauriMock] *)

(** Values returned by [invoke]. *)
Inductive Value :=
| VNull
| VBool (b : bool)
| VNum (q : Q)
| VStr (s : string)
| VPacks (ps : list PackInfo)
| VPack (p : PackInfo)
| VSlots (ss : list SlotInfo).

(** A reply: a returned value, or a thrown [TypeError] (the promise is
    rejected, the state keeps the changes made before the throw).
    [Unmodelled] marks the one case the model leaves out: a
    [create_custom_pack] whose id is ["__proto__"], where the assignment
    replaces the prototype of [customSlots]. *)
Inductive Reply := Returns (v : Value) | Throws | Unmodelled.

(** The fields of [args] the handler reads: a number for [volume], strings
    otherwise; [None] is an absent field (or absent [args]), null or
    undefined. *)
Record Args := {
  a_volume : option Q;
  a_packId : option string;
  a_name : option string;
  a_slot : option string;
  a_filePath : option string
}.

(** An object key: [undefined] is converted to ["undefined"]. *)
Definition js_key (o : option string) : string :=
  match o with Some k => k | None => "undefined" end.

(** Properties every plain object inherits from [Object.prototype]. *)
Definition OBJECT_PROTOTYPE_PROPS : list string :=
  [ "constructor"; "__defineGetter__"; "__defineSetter__"; "hasOwnProperty";
    "__lookupGetter__"; "__lookupSetter__"; "isPrototypeOf";
    "propertyIsEnumerable"; "toString"; "valueOf"; "__proto__";
    "toLocaleString" ].

Definition is_proto_prop (k : string) : bool :=
  existsb (String.eqb k) OBJECT_PROTOTYPE_PROPS.

(** [state.customSlots[k]]: an own array, an inherited property (a function,
    or [Object.prototype] for ["__proto__"], which is read through the
    accessor even when an own key of that name exists), or [undefined]. *)
Inductive Lookup := Own (ss : list SlotInfo) | Inherited | Absent.

Definition slots_get (m : list (string * list SlotInfo)) (k : string) : Lookup :=
  if String.eqb k "__proto__" then Inherited
  else match find (fun e => String.eqb (fst e) k) m with
       | Some (_, ss) => Own ss
       | None => if is_proto_prop k then Inherited else Absent
       end.

(** [state.customSlots[k] = v] for [k <> "__proto__"]. *)
Definition slots_set (m : list (string * list SlotInfo)) (k : string)
    (v : list SlotInfo) : list (string * list SlotInfo) :=
  (k, v) :: filter (fun e => negb (String.eqb (fst e) k)) m.

(** [delete state.customSlots[k]] *)
Definition slots_delete (m : list (string * list SlotInfo)) (k : string)
  : list (string * list SlotInfo) :=
  filter (fun e => negb (String.eqb (fst e) k)) m.

(** In-place update of the array [state.customSlots[k]]. *)
Fixpoint slots_update (m : list (string * list SlotInfo)) (k : string)
    (f : list SlotInfo -> list SlotInfo) : list (string * list SlotInfo) :=
  match m with
  | [] => []
  | (k', ss) :: r =>
      if String.eqb k' k then (k', f ss) :: r else (k', ss) :: slots_update r k f
  end.

(** [x.slot === slot]; an undefined [slot] matches nothing. *)
Definition slot_is (slot : option string) (x : SlotInfo) : bool :=
  match slot with Some s => String.eqb (si_slot x) s | None => false end.

(** [const s = slots.find((x) => x.slot === slot); if (s) s.file_name = f;] *)
Fixpoint set_file_name (slot : option string) (f : option string)
    (ss : list SlotInfo) : list SlotInfo :=
  match ss with
  | [] => []
  | x :: r =>
      if slot_is slot x
      then {| si_slot := si_slot x; si_label := si_label x; si_file_name := f |} :: r
      else x :: set_file_name slot f r
  end.

(** [filePath.replace(/\\/g, "/").split("/").pop()]; the separators are
    single ASCII characters, so splitting the UTF-8 bytes splits the same
    places as splitting the UTF-16 code units. *)
Definition slash : ascii := "/"%char.
Definition backslash : ascii := ascii_of_nat 92.

Definition replace_backslashes (s : string) : string :=
  string_of_list_ascii
    (map (fun c => if Ascii.eqb c backslash then slash else c) (list_ascii_of_string s)).

Fixpoint split_slash_aux (cs : list ascii) (cur : list ascii) : list string :=
  match cs with
  | [] => [string_of_list_ascii (rev cur)]
  | c :: r =>
      if Ascii.eqb c slash
      then string_of_list_ascii (rev cur) :: split_slash_aux r []
      else split_slash_aux r (c :: cur)
  end.

Definition split_slash (s : string) : list string :=
  split_slash_aux (list_ascii_of_string s) [].

Definition file_name_of (filePath : string) : string :=
  last (split_slash (replace_backslashes filePath)) EmptyString.

Definition with_volume (v : Q) (s : MockState) : MockState :=
  {| enabled := enabled s; volume := v; activePackId := activePackId s;
     packs := packs s; customSlots := customSlots s; nextCustomId := nextCustomId s |}.

Definition with_active (a : string) (s : MockState) : MockState :=
  {| enabled := enabled s; volume := volume s; activePackId := a;
     packs := packs s; customSlots := customSlots s; nextCustomId := nextCustomId s |}.

Definition with_packs (ps : list PackInfo) (s : MockState) : MockState :=
  {| enabled := enabled s; volume := volume s; activePackId := activePackId s;
     packs := ps; customSlots := customSlots s; nextCustomId := nextCustomId s |}.

Definition with_slots (m : list (string * list SlotInfo)) (s : MockState) : MockState :=
  {| enabled := enabled s; volume := volume s; activePackId := activePackId s;
     packs := packs s; customSlots := m; nextCustomId := nextCustomId s |}.

(** [p.source !== "user"] is its negation. *)
Definition is_user_source (p : PackInfo) : bool :=
  match pi_source p with Some src => String.eqb src "user" | None => false end.

(** [state.packs.findIndex((p, i) => i > 0 && p.source !== "user")], from
    index [i]. *)
Fixpoint find_bundled_index (i : nat) (ps : list PackInfo) : option nat :=
  match ps with
  | [] => None
  | p :: r =>
      if Nat.ltb 0 i && negb (is_user_source p) then Some i
      else find_bundled_index (S i) r
  end.

Definition new_pack_slots : list SlotInfo :=
  [ {| si_slot := "default"; si_label := "Default Key"; si_file_name := None |};
    {| si_slot := "space"; si_label := "Space"; si_file_name := None |};
    {| si_slot := "enter"; si_label := "Enter"; si_file_name := None |};
    {| si_slot := "modifier"; si_label := "Modifiers"; si_file_name := None |};
    {| si_slot := "backspace"; si_label := "Backspace / Delete"; si_file_name := None |} ].

(** [case "create_custom_pack"] *)
Definition create_custom_pack (args : Args) (state : MockState) : Reply * MockState :=
  let name := match a_name args with Some n => n | None => "Untitled" end in
  let id := nextCustomId state in
  let pack := {| pi_id := id; pi_name := name; pi_author := "You";
                 pi_description := EmptyString; pi_source := Some "user" |} in
  let packs' := match find_bundled_index 0 (packs state) with
                | None => (packs state ++ [pack])%list
                | Some idx => (firstn idx (packs state) ++ pack :: skipn idx (packs state))%list
                end in
  if String.eqb id "__proto__" then (Unmodelled, state)
  else (Returns (VPack pack),
        with_slots (slots_set (customSlots state) id new_pack_slots)
                   (with_packs packs' state)).

(** [case "import_sound_file"]: [filePath.replace] throws on an undefined
    path, [slots.find] on an inherited property. *)
Definition import_sound_file (args : Args) (state : MockState) : Reply * MockState :=
  match a_filePath args with
  | None => (Throws, state)
  | Some filePath =>
      let fileName := file_name_of filePath in
      let packId := js_key (a_packId args) in
      match slots_get (customSlots state) packId with
      | Own _ =>
          (Returns VNull,
           with_slots (slots_update (customSlots state) packId
                         (set_file_name (a_slot args) (Some fileName))) state)
      | Inherited => (Throws, state)
      | Absent => (Returns VNull, state)
      end
  end.

(** [case "get_custom_pack_slots"]: spreading an inherited property throws. *)
Definition get_custom_pack_slots (args : Args) (state : MockState) : Reply * MockState :=
  match slots_get (customSlots state) (js_key (a_packId args)) with
  | Own ss => (Returns (VSlots ss), state)
  | Inherited => (Throws, state)
  | Absent => (Returns (VSlots []), state)
  end.

(** [case "remove_sound_slot"] *)
Definition remove_sound_slot (args : Args) (state : MockState) : Reply * MockState :=
  let packId := js_key (a_packId args) in
  match slots_get (customSlots state) packId with
  | Own _ =>
      (Returns VNull,
       with_slots (slots_update (customSlots state) packId
                     (set_file_name (a_slot args) None)) state)
  | Inherited => (Throws, state)
  | Absent => (Returns VNull, state)
  end.

(** [p.id !== packId] *)
Definition id_differs (packId : option string) (p : PackInfo) : bool :=
  match packId with Some k => negb (String.eqb (pi_id p) k) | None => true end.

(** [case "delete_custom_pack"] *)
Definition delete_custom_pack (args : Args) (state : MockState) : Reply * MockState :=
  (Returns VNull,
   with_slots (slots_delete (customSlots state) (js_key (a_packId args)))
              (with_packs (filter (id_differs (a_packId args)) (packs state)) state)).

(** [invoke(cmd, args)]; the [default] branch logs a warning and returns
    null. *)
Definition invoke (cmd : string) (args : Args) (state : MockState) : Reply * MockState :=
  if String.eqb cmd "get_enabled" then
    let (b, s') := get_enabled state in (Returns (VBool b), s')
  else if String.eqb cmd "get_volume" then (Returns (VNum (volume state)), state)
  else if String.eqb cmd "get_sound_packs" then (Returns (VPacks (packs state)), state)
  else if String.eqb cmd "get_active_pack_id" then
    (Returns (VStr (activePackId state)), state)
  else if String.eqb cmd "toggle_sound" then
    let (b, s') := toggle_sound state in (Returns (VBool b), s')
  else if String.eqb cmd "set_volume" then
    (Returns VNull,
     with_volume (match a_volume args with Some v => v | None => volume state end) state)
  else if String.eqb cmd "set_active_pack" then
    (Returns VNull,
     with_active (match a_packId args with Some k => k | None => activePackId state end)
                 state)
  else if String.eqb cmd "play_sound" then (Returns VNull, state)
  else if String.eqb cmd "create_custom_pack" then create_custom_pack args state
  else if String.eqb cmd "import_sound_file" then import_sound_file args state
  else if String.eqb cmd "get_custom_pack_slots" then get_custom_pack_slots args state
  else if String.eqb cmd "remove_sound_slot" then remove_sound_slot args state
  else if String.eqb cmd "delete_custom_pack" then delete_custom_pack args state
  else (Returns VNull, state).

End Mock.

(** ** Sound-pack engine

    The Rust back end (sound_pack.rs, sound_engine.rs, lib.rs) is not among
    the analysed sources; only its IPC mock and e2e tests are.  Every
    definition of this module is modelled from the specification. *)
Module Pack.
Open Scope string_scope.

Definition KeyId := string.
Definition AssetRef := string.

Inductive Source := Bundled | User.

Definition source_eqb (a b : Source) : bool :=
  match a, b with
  | Bundled, Bundled | User, User => true
  | _, _ => false
  end.

(** [CategoryName]: the fixed closed set of category names. *)
Inductive CategoryName := CatDefault | CatSpace | CatEnter | CatModifier | CatBackspace.

Record Defaults := { d_asset : AssetRef; d_volume : Q }.
Record KeyOverride := { ko_asset : option AssetRef; ko_volume : option Q }.
Record CategoryOverride := {
  co_keys : list KeyId;
  co_asset : AssetRef;
  co_volume : option Q
}.

(** [SoundPack]; the maps of the manifest are association lists in
    manifest declaration order. *)
Record SoundPack := {
  id : string;
  name : string;
  author : string;
  version : string;
  description : string;
  source : Source;
  defaults : Defaults;
  keyOverrides : list (KeyId * KeyOverride);
  categoryOverrides : list (CategoryName * CategoryOverride);
  originalNames : list (string * string)
}.

Fixpoint lookup {A} (k : string) (m : list (string * A)) : option A :=
  match m with
  | [] => None
  | (k', v) :: m' => if String.eqb k k' then Some v else lookup k m'
  end.

Definition remove_key {A} (k : string) (m : list (string * A)) : list (string * A) :=
  filter (fun '(k', _) => negb (String.eqb k k')) m.

Definition mem (x : string) (l : list string) : bool := existsb (String.eqb x) l.

Definition with_default {A} (o : option A) (d : A) : A :=
  match o with Some a => a | None => d end.

(** *** SoundResolver (spec 4.2) *)

(** Modelled from the spec: steps 1 to 3 of [resolve]; a key in several
    categories takes the first category in declaration order. *)
Definition resolve_ref (pack : SoundPack) (keyId : KeyId) : AssetRef * Q :=
  let d := defaults pack in
  match lookup keyId (keyOverrides pack) with
  | Some ko => (with_default (ko_asset ko) (d_asset d),
                with_default (ko_volume ko) (d_volume d))
  | None =>
      match find (fun '(_, co) => mem keyId (co_keys co)) (categoryOverrides pack) with
      | Some (_, co) => (co_asset co, with_default (co_volume co) (d_volume d))
      | None => (d_asset d, d_volume d)
      end
  end.

Inductive Resolved := Silent | Sound (asset : AssetRef) (vol : Q).

(** Modelled from the spec: step 4, an asset without a loaded (decoded)
    buffer resolves to [Silent]; [loaded] is the decode cache of the
    active pack. *)
Definition resolve (loaded : AssetRef -> bool) (pack : SoundPack) (keyId : KeyId)
  : Resolved :=
  let '(a, v) := resolve_ref pack keyId in
  if loaded a then Sound a v else Silent.

(** *** Volume compositing (spec 4.2) *)

Definition Qltb (x y : Q) : bool := negb (Qle_bool y x).

(** [x.clamp(lo, hi)] *)
Definition clamp (x lo hi : Q) : Q :=
  if Qltb x lo then lo else if Qltb hi x then hi else x.

(** Modelled from the spec: [finalVolume = clamp(masterVolume * resolvedVolume, 0, 1)]. *)
Definition final_volume (masterVolume resolvedVolume : Q) : Q :=
  clamp (masterVolume * resolvedVolume) 0 1.

(** *** Process-wide state and the lifecycle monad (spec 3, 4.4, 5) *)

Inductive Error := ValidationError | NotFoundError | IoError | PolicyError.

Inductive Result (A : Type) := Ok (a : A) | Err (e : Error).
Arguments Ok {A} a.
Arguments Err {A} e.

(** [files]: the files under the pack roots, path to size in bytes;
    [userFiles]: the user's files offered to the import. *)
Record State := {
  packs : list SoundPack;
  activePackId : string;
  masterVolume : Q;
  enabled : bool;
  files : list (string * N);
  userFiles : list (string * N)
}.

Definition set_packs (ps : list SoundPack) (s : State) : State :=
  {| packs := ps; activePackId := activePackId s; masterVolume := masterVolume s;
     enabled := enabled s; files := files s; userFiles := userFiles s |}.
Definition set_files (fs : list (string * N)) (s : State) : State :=
  {| packs := packs s; activePackId := activePackId s; masterVolume := masterVolume s;
     enabled := enabled s; files := fs; userFiles := userFiles s |}.
Definition set_active (a : string) (s : State) : State :=
  {| packs := packs s; activePackId := a; masterVolume := masterVolume s;
     enabled := enabled s; files := files s; userFiles := userFiles s |}.

(** State and error monad of the lifecycle operations: an error returns the
    state reached when it was raised. *)
Definition M (A : Type) := State -> Result A * State.

Definition ret {A} (a : A) : M A := fun s => (Ok a, s).
Definition fail {A} (e : Error) : M A := fun s => (Err e, s).
Definition bind {A B} (m : M A) (f : A -> M B) : M B :=
  fun s => match m s with
           | (Ok a, s') => f a s'
           | (Err e, s') => (Err e, s')
           end.
Definition get : M State := fun s => (Ok s, s).
Definition put (s : State) : M unit := fun _ => (Ok tt, s).
Definition modify (f : State -> State) : M unit := fun s => (Ok tt, f s).
Definition guard (b : bool) (e : Error) : M unit := if b then ret tt else fail e.
Definition lift_opt {A} (o : option A) (e : Error) : M A :=
  match o with Some a => ret a | None => fail e end.

Notation "x <- m ;; k" := (bind m (fun x => k))
  (at level 61, m at next level, right associativity).

Definition DEFAULT_PACK_ID : string := "default".
(** The generated silence placeholder: 441 zero samples, mono, 16 bits. *)
Definition SILENCE_PLACEHOLDER : AssetRef := "sounds/silence.wav".
Definition SILENCE_SIZE : N := 44 + 441 * 2.
Definition MAX_FILE_SIZE : N := 5 * 1024 * 1024.
Definition ALLOWED_EXTENSIONS : list string := ["mp3"; "wav"; "ogg"].

Definition pack_ids (s : State) : list string := map id (packs s).

Definition pack_dir (p : SoundPack) : string :=
  match source p with
  | User => "user-soundpacks/" ++ id p ++ "/"
  | Bundled => "soundpacks/" ++ id p ++ "/"
  end.

Definition get_pack (packId : string) : M SoundPack :=
  fun s => match find (fun p => String.eqb (id p) packId) (packs s) with
           | Some p => (Ok p, s)
           | None => (Err NotFoundError, s)
           end.

Definition replace_pack (p : SoundPack) (s : State) : State :=
  set_packs (map (fun q => if String.eqb (id q) (id p) then p else q) (packs s)) s.

(** [getActivePackId()] *)
Definition getActivePackId : M string := fun s => (Ok (activePackId s), s).

(** *** PackRegistry ordering (spec 4.1) *)

Module NameOrder <: Orders.TotalLeBool.
Definition t := SoundPack.
Definition leb (p q : SoundPack) : bool := String.leb (name p) (name q).
Lemma leb_total : forall p q, leb p q = true \/ leb q p = true.
Proof. intros p q; apply String.leb_total. Qed.
End NameOrder.

Module NameSort := Mergesort.Sort NameOrder.

Definition is_default (p : SoundPack) : bool := String.eqb (id p) DEFAULT_PACK_ID.
Definition is_user (p : SoundPack) : bool :=
  negb (is_default p) && source_eqb (source p) User.
Definition is_other_bundled (p : SoundPack) : bool :=
  negb (is_default p) && source_eqb (source p) Bundled.

(** Modelled from the spec: the default pack first, then user packs
    alphabetical by name, then the remaining bundled packs alphabetical
    by name. *)
Definition order_packs (ps : list SoundPack) : list SoundPack :=
  filter is_default ps ++ NameSort.sort (filter is_user ps)
  ++ NameSort.sort (filter is_other_bundled ps).

(** Modelled from the spec: the order spec 4.1 states for the pack list,
    the default pack, then user packs sorted by name, then the other
    bundled packs sorted by name. *)
Definition name_le (p q : SoundPack) : Prop := String.leb (name p) (name q) = true.

Definition spec_order (l : list SoundPack) : Prop :=
  exists d us bs,
    l = d :: us ++ bs /\ id d = DEFAULT_PACK_ID /\
    Forall (fun p => source p = User /\ id p <> DEFAULT_PACK_ID) us /\ Sorted name_le us /\
    Forall (fun p => source p = Bundled /\ id p <> DEFAULT_PACK_ID) bs /\ Sorted name_le bs.

(** [listPacks()] *)
Definition listPacks : M (list SoundPack) := fun s => (Ok (order_packs (packs s)), s).

(** *** PackLifecycleManager (spec 4.4, 4.5) *)

(** Names: lowercase letters and digits are kept, upper-case letters are
    lowered, any other character becomes a dash. *)
Definition slug_char (c : ascii) : ascii :=
  let n := nat_of_ascii c in
  if Nat.leb 65 n && Nat.leb n 90 then ascii_of_nat (n + 32)%nat
  else if (Nat.leb 97 n && Nat.leb n 122) || (Nat.leb 48 n && Nat.leb n 57) then c
  else "-"%char.

(** Modelled from the spec: "slugifying the name (lowercase, dashes)". *)
Definition slugify (name : string) : string :=
  string_of_list_ascii (map slug_char (list_ascii_of_string name)).

Definition suffixed (base : string) (n : nat) : string :=
  base ++ "-" ++ NilEmpty.string_of_uint (Nat.to_uint n).

(** Modelled from the spec: the slug itself when free, else the first free
    of [slug-2], [slug-3], ... *)
Definition unique_id (base : string) (taken : list string) : string :=
  if negb (mem base taken) then base
  else match find (fun c => negb (mem c taken))
                  (map (suffixed base) (seq 2%nat (S (length taken)))) with
       | Some c => c
       | None => base
       end.

(** Rust's [char::is_whitespace] (the Unicode White_Space property) on the
    UTF-8 bytes of a string.  One-byte characters: U+0009 to U+000D and
    U+0020. *)
Definition is_ws (c : ascii) : bool :=
  existsb (Ascii.eqb c) [" "; "009"; "010"; "011"; "012"; "013"]%char.

(** Two-byte characters: U+0085 and U+00A0. *)
Definition is_ws2 (c1 c2 : ascii) : bool :=
  (nat_of_ascii c1 =? 194)%nat &&
  ((nat_of_ascii c2 =? 133)%nat || (nat_of_ascii c2 =? 160)%nat).

(** Three-byte characters: U+1680, U+2000 to U+200A, U+2028, U+2029,
    U+202F, U+205F and U+3000. *)
Definition is_ws3 (c1 c2 c3 : ascii) : bool :=
  let a := nat_of_ascii c1 in
  let b := nat_of_ascii c2 in
  let c := nat_of_ascii c3 in
  ((a =? 225) && (b =? 154) && (c =? 128) ||
   (a =? 226) && (b =? 128) &&
     ((128 <=? c) && (c <=? 138) || (c =? 168) || (c =? 169) || (c =? 175)) ||
   (a =? 226) && (b =? 129) && (c =? 159) ||
   (a =? 227) && (b =? 128) && (c =? 128))%nat.

(** Every character of a UTF-8 byte sequence is whitespace (a Rust [String]
    is valid UTF-8, so each step starts at a character boundary). *)
Fixpoint utf8_all_ws (cs : list ascii) : bool :=
  match cs with
  | [] => true
  | c :: r =>
      if is_ws c then utf8_all_ws r else
      match r with
      | c2 :: r2 =>
          if is_ws2 c c2 then utf8_all_ws r2 else
          match r2 with
          | c3 :: r3 => is_ws3 c c2 c3 && utf8_all_ws r3
          | [] => false
          end
      | [] => false
      end
  end.

(** [name.trim().is_empty()]: [trim] strips Unicode whitespace from both
    ends, so the result is empty exactly when every character is
    whitespace. *)
Definition is_blank (name : string) : bool := utf8_all_ws (list_ascii_of_string name).

(** Modelled from the spec: [createPack(name)]. *)
Definition createPack (name : string) : M SoundPack :=
  _ <- guard (negb (is_blank name)) ValidationError ;;
  s <- get ;;
  let pack := {| id := unique_id (slugify name) (pack_ids s);
                 name := name; author := "You"; version := "1.0.0";
                 description := EmptyString; source := User;
                 defaults := {| d_asset := SILENCE_PLACEHOLDER; d_volume := 4 # 5 |};
                 keyOverrides := []; categoryOverrides := []; originalNames := [] |} in
  _ <- put (set_files ((pack_dir pack ++ SILENCE_PLACEHOLDER, SILENCE_SIZE) :: files s)
             (set_packs (packs s ++ [pack]) s)) ;;
  ret pack.

(** Modelled from the spec: [deletePack(packId)]. *)
Definition deletePack (packId : string) : M unit :=
  pack <- get_pack packId ;;
  _ <- guard (source_eqb (source pack) User) PolicyError ;;
  modify (fun s =>
    set_active (if String.eqb (activePackId s) packId then DEFAULT_PACK_ID
                else activePackId s)
      (set_files (filter (fun '(path, _) => negb (String.prefix (pack_dir pack) path))
                         (files s))
        (set_packs (filter (fun p => negb (String.eqb (id p) packId)) (packs s)) s))).

(** Slots: the default slot, a category slot or a per-key token [key:<KeyId>]. *)
Inductive Slot := SlotDefault | SlotCategory (c : CategoryName) | SlotKey (k : KeyId).

Definition category_label (c : CategoryName) : string :=
  match c with
  | CatDefault => "default" | CatSpace => "space" | CatEnter => "enter"
  | CatModifier => "modifier" | CatBackspace => "backspace"
  end.

Definition category_eqb (a b : CategoryName) : bool :=
  String.eqb (category_label a) (category_label b).

Definition category_keys (c : CategoryName) : list KeyId :=
  match c with
  | CatDefault => []
  | CatSpace => ["Space"]
  | CatEnter => ["Return"; "KpReturn"]
  | CatModifier => ["ShiftLeft"; "ShiftRight"; "ControlLeft"; "ControlRight";
                    "Alt"; "AltGr"; "MetaLeft"; "MetaRight"]
  | CatBackspace => ["Backspace"; "Delete"]
  end.

Definition parse_slot (slotKey : string) : option Slot :=
  if String.eqb slotKey "default" then Some SlotDefault
  else if String.eqb slotKey "space" then Some (SlotCategory CatSpace)
  else if String.eqb slotKey "enter" then Some (SlotCategory CatEnter)
  else if String.eqb slotKey "modifier" then Some (SlotCategory CatModifier)
  else if String.eqb slotKey "backspace" then Some (SlotCategory CatBackspace)
  else if String.prefix "key:" slotKey
  then Some (SlotKey (substring 4%nat (String.length slotKey - 4)%nat slotKey))
  else None.

Fixpoint lookup_cat (c : CategoryName) (m : list (CategoryName * CategoryOverride))
  : option CategoryOverride :=
  match m with
  | [] => None
  | (c', co) :: m' => if category_eqb c c' then Some co else lookup_cat c m'
  end.

Definition remove_cat (c : CategoryName) (m : list (CategoryName * CategoryOverride))
  : list (CategoryName * CategoryOverride) :=
  filter (fun '(c', _) => negb (category_eqb c c')) m.

(** The asset a slot holds, [None] when no override is present. *)
Definition slot_asset (pack : SoundPack) (slot : Slot) : option AssetRef :=
  match slot with
  | SlotDefault => Some (d_asset (defaults pack))
  | SlotCategory c => option_map co_asset (lookup_cat c (categoryOverrides pack))
  | SlotKey k => match lookup k (keyOverrides pack) with
                 | Some ko => ko_asset ko
                 | None => None
                 end
  end.

Definition set_defaults (d : Defaults) (p : SoundPack) : SoundPack :=
  {| id := id p; name := name p; author := author p; version := version p;
     description := description p; source := source p; defaults := d;
     keyOverrides := keyOverrides p; categoryOverrides := categoryOverrides p;
     originalNames := originalNames p |}.
Definition set_keyOverrides (m : list (KeyId * KeyOverride)) (p : SoundPack) : SoundPack :=
  {| id := id p; name := name p; author := author p; version := version p;
     description := description p; source := source p; defaults := defaults p;
     keyOverrides := m; categoryOverrides := categoryOverrides p;
     originalNames := originalNames p |}.
Definition set_categoryOverrides (m : list (CategoryName * CategoryOverride))
  (p : SoundPack) : SoundPack :=
  {| id := id p; name := name p; author := author p; version := version p;
     description := description p; source := source p; defaults := defaults p;
     keyOverrides := keyOverrides p; categoryOverrides := m;
     originalNames := originalNames p |}.
Definition set_originalNames (m : list (string * string)) (p : SoundPack) : SoundPack :=
  {| id := id p; name := name p; author := author p; version := version p;
     description := description p; source := source p; defaults := defaults p;
     keyOverrides := keyOverrides p; categoryOverrides := categoryOverrides p;
     originalNames := m |}.

(** Point the manifest section of [slot] at [asset], keeping its volume. *)
Definition set_slot_asset (pack : SoundPack) (slot : Slot) (asset : AssetRef) : SoundPack :=
  match slot with
  | SlotDefault =>
      set_defaults {| d_asset := asset; d_volume := d_volume (defaults pack) |} pack
  | SlotCategory c =>
      let vol := match lookup_cat c (categoryOverrides pack) with
                 | Some co => co_volume co | None => None end in
      set_categoryOverrides
        (remove_cat c (categoryOverrides pack) ++
         [(c, {| co_keys := category_keys c; co_asset := asset; co_volume := vol |})])
        pack
  | SlotKey k =>
      let vol := match lookup k (keyOverrides pack) with
                 | Some ko => ko_volume ko | None => None end in
      set_keyOverrides
        (remove_key k (keyOverrides pack) ++
         [(k, {| ko_asset := Some asset; ko_volume := vol |})])
        pack
  end.

(** Remove the override of [slot]; the default slot is reset to the silence
    placeholder instead. *)
Definition clear_slot (pack : SoundPack) (slot : Slot) : SoundPack :=
  match slot with
  | SlotDefault =>
      set_defaults {| d_asset := SILENCE_PLACEHOLDER;
                      d_volume := d_volume (defaults pack) |} pack
  | SlotCategory c => set_categoryOverrides (remove_cat c (categoryOverrides pack)) pack
  | SlotKey k => set_keyOverrides (remove_key k (keyOverrides pack)) pack
  end.

Definition slot_stem (slot : Slot) : string :=
  match slot with
  | SlotDefault => "keydown"
  | SlotCategory c => "keydown-" ++ category_label c
  | SlotKey k => "keydown-key-" ++ k
  end.

(** The characters after the last one satisfying [sep], if any. *)
Fixpoint after_last_rev (sep : ascii -> bool) (rl : list ascii) : option (list ascii) :=
  match rl with
  | [] => None
  | c :: r => if sep c then Some [] else option_map (cons c) (after_last_rev sep r)
  end.

Definition extension (path : string) : string :=
  match after_last_rev (Ascii.eqb ".") (rev (list_ascii_of_string path)) with
  | Some e => string_of_list_ascii (rev e)
  | None => EmptyString
  end.

Definition file_name (path : string) : string :=
  match after_last_rev (fun c => Ascii.eqb c "/" || Ascii.eqb c "\")
                       (rev (list_ascii_of_string path)) with
  | Some e => string_of_list_ascii (rev e)
  | None => path
  end.

(** Spec 4.5: a per-key token may not address a key already covered by a
    category assignment of the pack; it must first be removed from the
    category.  The spec names no error kind for this refusal: it is a
    [ValidationError] here. *)
Definition key_slot_free (pack : SoundPack) (slot : Slot) : bool :=
  match slot with
  | SlotKey k => negb (existsb (fun '(_, co) => mem k (co_keys co)) (categoryOverrides pack))
  | _ => true
  end.

(** Modelled from the spec: [importSlot(packId, slotKey, sourceFilePath)].
    Validation comes first; the copy replaces a file of the same name and
    the previous file of the slot is deleted afterwards (the silence
    placeholder is kept, [removeSlot] of the default slot points back at
    it).  The hot reload of the audio engine is not modelled. *)
Definition importSlot (packId slotKey sourceFilePath : string) : M unit :=
  let ext := extension sourceFilePath in
  _ <- guard (mem ext ALLOWED_EXTENSIONS) ValidationError ;;
  s <- get ;;
  size <- lift_opt (lookup sourceFilePath (userFiles s)) IoError ;;
  _ <- guard (N.leb size MAX_FILE_SIZE) ValidationError ;;
  slot <- lift_opt (parse_slot slotKey) NotFoundError ;;
  pack <- get_pack packId ;;
  _ <- guard (source_eqb (source pack) User) PolicyError ;;
  _ <- guard (key_slot_free pack slot) ValidationError ;;
  let dest := "sounds/" ++ slot_stem slot ++ "." ++ ext in
  let dir := pack_dir pack in
  let copied := (dir ++ dest, size) :: remove_key (dir ++ dest) (files s) in
  let cleaned := match slot_asset pack slot with
                 | Some old => if String.eqb old dest || String.eqb old SILENCE_PLACEHOLDER
                               then copied else remove_key (dir ++ old) copied
                 | None => copied
                 end in
  let pack' := set_originalNames
                 ((slotKey, file_name sourceFilePath) :: remove_key slotKey (originalNames pack))
                 (set_slot_asset pack slot dest) in
  put (replace_pack pack' (set_files cleaned s)).

(** Modelled from the spec: [removeSlot(packId, slotKey)]. *)
Definition removeSlot (packId slotKey : string) : M unit :=
  slot <- lift_opt (parse_slot slotKey) NotFoundError ;;
  pack <- get_pack packId ;;
  _ <- guard (source_eqb (source pack) User) PolicyError ;;
  modify (replace_pack (set_originalNames (remove_key slotKey (originalNames pack))
                                          (clear_slot pack slot))).

(** Modelled from the spec: one key-down event against the active pack;
    a zero final volume is [Silent] (spec 8), the logarithmic conversion
    of the final volume is left to the audio backend. *)
Inductive Outcome := Mute | Voice (asset : AssetRef) (finalVolume : Q).

Definition key_event (loaded : AssetRef -> bool) (s : State) (pack : SoundPack)
  (keyId : KeyId) : Outcome :=
  if negb (enabled s) then Mute
  else match resolve loaded pack keyId with
       | Silent => Mute
       | Sound a v =>
           let fv := final_volume (masterVolume s) v in
           if Qeq_bool fv 0 then Mute else Voice a fv
       end.

(** The registry invariants: pack ids are unique and the reserved id
    ["default"] names a bundled pack. *)
Definition wf (s : State) : Prop :=
  NoDup (pack_ids s) /\
  exists d, In d (packs s) /\ id d = DEFAULT_PACK_ID /\ source d = Bundled.

End Pack.

(** ** Concrete registries used by the examples *)
Module Fixtures.
Import Pack.
Open Scope string_scope.

Definition mk_pack (pid pname : string) (src : Source) (asset : AssetRef)
  (kos : list (KeyId * KeyOverride))
  (cos : list (CategoryName * CategoryOverride)) : SoundPack :=
  {| id := pid; name := pname; author := "KeySound"; version := "1.0.0";
     description := EmptyString; source := src;
     defaults := {| d_asset := asset; d_volume := 1 |};
     keyOverrides := kos; categoryOverrides := cos; originalNames := [] |}.

Definition hhkb : SoundPack := mk_pack "default" "HHKB" Bundled "sounds/keydown.wav" [] [].
Definition cherry : SoundPack :=
  mk_pack "cherry-mx" "Cherry MX Blue" Bundled "sounds/keydown.wav" [] [].
Definition myCustom : SoundPack :=
  mk_pack "my-custom" "My Custom" User "sounds/keydown.wav" [] [].

(** Spec 8: [key_overrides.Space = A] and the category [space] covering
    [Space] with [B]. *)
Definition spacePack : SoundPack :=
  mk_pack "space-demo" "Space Demo" User "sounds/keydown.wav"
    [("Space", {| ko_asset := Some "sounds/a.wav"; ko_volume := None |})]
    [(CatSpace, {| co_keys := ["Space"]; co_asset := "sounds/b.wav";
                   co_volume := Some (1 # 2) |})].

Definition s0 : State := {|
  packs := [hhkb; myCustom; cherry];
  activePackId := "my-custom";
  masterVolume := 4 # 5;
  enabled := true;
  files := [("user-soundpacks/my-custom/sounds/keydown.wav", 2000%N)];
  userFiles := [("C:/Users/me/click.wav", 2000%N); ("C:/Users/me/huge.wav", 6000000%N);
                ("C:/Users/me/notes.txt", 10%N)]
|}.

(** [s0] with the master volume set to 0. *)
Definition s_mute : State := {|
  packs := packs s0; activePackId := activePackId s0; masterVolume := 0;
  enabled := true; files := files s0; userFiles := userFiles s0 |}.

(** A registry that already holds a pack with id [test-2] (created from the
    name "Test 2"), but none with id [test]. *)
Definition s_test2 : State :=
  set_packs [hhkb; mk_pack "test-2" "Test 2" User "sounds/silence.wav" [] []] s0.

End Fixtures.

(** * Proofs *)

(** ** WAV encoding *)
Module WavFacts.
Import Wav.
Open Scope Z_scope.

Example encodeWav_two :
  option_map (@length Z) (encodeWav [1#2; -2 # 1] SAMPLE_RATE) = Some 48%nat.
Proof. reflexivity. Qed.

Example encodeWav_two_samples :
  option_map (fun b => (readUInt32LE b 4, readUInt32LE b 40,
                        readInt16LE b 44, readInt16LE b 46))
             (encodeWav [1#2; -2 # 1] SAMPLE_RATE) = Some (40, 4, 16384, -32768).
Proof. reflexivity. Qed.


(** *** Byte-level lemmas *)

Lemma le_bytes_length v k : length (le_bytes v k) = k.
Proof. revert v; induction k; intros v; simpl; auto. Qed.

Lemma from_le_le_bytes v k : from_le (le_bytes v k) = v mod 2 ^ (8 * Z.of_nat k).
Proof.
  revert v; induction k as [|k IH]; intros v; simpl le_bytes; simpl from_le.
  - rewrite Z.mul_0_r, Z.pow_0_r, Z.mod_1_r; reflexivity.
  - rewrite IH, Z.shiftr_div_pow2 by lia.
    change (Z.land v 255) with (Z.land v (Z.ones 8)).
    rewrite Z.land_ones by lia.
    replace (8 * Z.of_nat (S k)) with (8 + 8 * Z.of_nat k) by lia.
    rewrite Z.pow_add_r by lia.
    change (2 ^ 8) with 256.
    assert (HP : 0 < 2 ^ (8 * Z.of_nat k)) by (apply Z.pow_pos_nonneg; lia).
    set (P := 2 ^ (8 * Z.of_nat k)) in *.
    pose proof (Z.div_mod v 256 ltac:(lia)) as H1.
    pose proof (Z.mod_pos_bound v 256 ltac:(lia)) as H2.
    pose proof (Z.div_mod (v / 256) P ltac:(lia)) as H3.
    pose proof (Z.mod_pos_bound (v / 256) P HP) as H4.
    assert (E : v mod (256 * P) = v mod 256 + 256 * ((v / 256) mod P)).
    { symmetry; apply Z.mod_unique with (q := v / 256 / P); [left; nia | nia]. }
    rewrite E; reflexivity.
Qed.

Lemma splice_app_l A T off bs :
  (off + length bs <= length A)%nat ->
  splice (A ++ T) off bs = splice A off bs ++ T.
Proof.
  intros H; unfold splice.
  rewrite firstn_app, skipn_app.
  replace (off - length A)%nat with 0%nat by lia.
  replace (off + length bs - length A)%nat with 0%nat by lia.
  simpl; rewrite !app_nil_r, <- !app_assoc; reflexivity.
Qed.

Lemma splice_app_end A T bs :
  splice (A ++ T) (length A) bs = A ++ splice T 0 bs.
Proof.
  unfold splice.
  rewrite firstn_app, skipn_app, firstn_all, Nat.sub_diag.
  replace (length A + length bs - length A)%nat with (length bs) by lia.
  rewrite skipn_all2 by lia.
  simpl; rewrite <- !app_assoc; reflexivity.
Qed.

Lemma write_int_app lo hi k A T value off :
  (lo <= value <= hi) -> (off + k <= length A)%nat ->
  write_int lo hi k (A ++ T) value off = Some (splice A off (le_bytes value k) ++ T).
Proof.
  intros Hv Hk; unfold write_int.
  rewrite length_app.
  replace ((lo <=? value) && (value <=? hi)) with true
    by (symmetry; apply andb_true_intro; split; apply Z.leb_le; lia).
  replace (Nat.leb (off + k) (length A + length T)) with true
    by (symmetry; apply Nat.leb_le; lia).
  rewrite splice_app_l by (rewrite le_bytes_length; lia).
  reflexivity.
Qed.

Lemma write_str_app A T s off :
  (off + length (ascii_bytes s) <= length A)%nat ->
  write_str (A ++ T) s off = Some (splice A off (ascii_bytes s) ++ T).
Proof.
  intros H; unfold write_str.
  rewrite length_app.
  replace (Nat.leb off (length A + length T)) with true
    by (symmetry; apply Nat.leb_le; lia).
  rewrite firstn_all2 by lia.
  rewrite splice_app_l by lia.
  reflexivity.
Qed.

Lemma clamp_sample_range x : (-1 <= clamp_sample x <= 1)%Q.
Proof.
  unfold clamp_sample; split.
  - apply Q.le_max_l.
  - apply Q.max_lub; [lra | apply Q.le_min_l].
Qed.

Lemma to_int16_range x : - 2 ^ 15 <= to_int16 x <= 2 ^ 15 - 1.
Proof.
  unfold to_int16, js_round.
  pose proof (clamp_sample_range x) as [Hlo Hhi].
  set (s := clamp_sample x) in *.
  assert (Hv : (-32768 <= (if Qle_bool 0 s then s * 32767 else s * 32768)
                <= 32767)%Q /\
               ((if Qle_bool 0 s then s * 32767 else s * 32768) < 65535 # 2)%Q).
  { destruct (Qle_bool 0 s) eqn:E.
    - apply Qle_bool_iff in E; split; [split|]; lra.
    - assert (Hn : (s < 0)%Q)
        by (apply Qnot_le_lt; intros C; apply Qle_bool_iff in C; congruence).
      split; [split|]; lra. }
  destruct Hv as [[H1 H2] H3].
  set (v := (if Qle_bool 0 s then s * 32767 else s * 32768)%Q) in *.
  split.
  - change (- 2 ^ 15) with (Qfloor (inject_Z (-32768))).
    apply Qfloor_resp_le; unfold inject_Z; lra.
  - assert (Hf := Qfloor_le (v + (1 # 2))).
    assert (Hlt : (inject_Z (Qfloor (v + (1 # 2))) < inject_Z 32768)%Q)
      by (unfold inject_Z at 2; lra).
    rewrite <- Zlt_Qlt in Hlt; lia.
Qed.


Lemma write_samples_app samples : forall P i,
  length P = (44 + i * 2)%nat ->
  write_samples (P ++ repeat 0 (2 * length samples)) i samples
  = Some (P ++ sample_bytes samples).
Proof.
  unfold sample_bytes.
  induction samples as [|x rest IH]; intros P i HP.
  - simpl; rewrite !app_nil_r; reflexivity.
  - replace (2 * length (x :: rest))%nat with (2 + 2 * length rest)%nat
      by (simpl; lia).
    rewrite repeat_app.
    change (write_samples ?b i (x :: rest)) with
      (let* buffer := writeInt16LE b (to_int16 x) (44 + i * 2) in
       write_samples buffer (S i) rest).
    assert (Hw : writeInt16LE (P ++ repeat 0 2 ++ repeat 0 (2 * length rest))
                   (to_int16 x) (44 + i * 2)
                 = Some (P ++ le_bytes (to_int16 x) 2 ++ repeat 0 (2 * length rest))).
    { unfold writeInt16LE, write_int.
      pose proof (to_int16_range x) as Hr.
      replace ((- 2 ^ 15 <=? to_int16 x) && (to_int16 x <=? 2 ^ 15 - 1)) with true
        by (symmetry; apply andb_true_intro; split; apply Z.leb_le; lia).
      rewrite (proj2 (Nat.leb_le _ _)) by (rewrite !length_app, !repeat_length; lia).
      rewrite <- HP, splice_app_end.
      rewrite splice_app_l by (rewrite le_bytes_length; reflexivity).
      reflexivity. }
    rewrite Hw, app_assoc, IH by (rewrite length_app, le_bytes_length, HP; lia).
    rewrite <- app_assoc; reflexivity.
Qed.

Ltac wav_step :=
  first [ rewrite write_str_app by (simpl; lia)
        | rewrite write_int_app by (unfold SAMPLE_RATE, BIT_DEPTH; solve [lia | simpl; lia]) ];
  cbv beta iota.

Lemma encodeWav_eq samples :
  36 + 2 * Z.of_nat (length samples) <= 2 ^ 32 - 1 ->
  encodeWav samples SAMPLE_RATE
  = Some (header (36 + 2 * Z.of_nat (length samples))
                 (2 * Z.of_nat (length samples)) SAMPLE_RATE
          ++ sample_bytes samples).
Proof.
  intros Hn; unfold encodeWav, alloc.
  change (BIT_DEPTH / 8) with 2.
  replace (Z.to_nat (44 + Z.of_nat (length samples) * 2))
    with (44 + 2 * length samples)%nat by lia.
  rewrite repeat_app.
  unfold writeUInt32LE, writeUInt16LE.
  do 13 wav_step.
  rewrite write_samples_app by reflexivity.
  f_equal; f_equal.
  replace (Z.of_nat (length samples) * 2) with (2 * Z.of_nat (length samples))
    by lia.
  reflexivity.
Qed.


Lemma header_length riff data sr : length (header riff data sr) = 44%nat.
Proof. reflexivity. Qed.

Lemma sample_bytes_length samples :
  length (sample_bytes samples) = (2 * length samples)%nat.
Proof.
  unfold sample_bytes; induction samples as [|x rest IH]; [reflexivity|].
  cbn [map concat]; rewrite length_app, le_bytes_length, IH; simpl; lia.
Qed.


Lemma from_le_int16 v :
  - 2 ^ 15 <= v <= 2 ^ 15 - 1 ->
  (let u := from_le (le_bytes v 2) in if 2 ^ 15 <=? u then u - 2 ^ 16 else u) = v.
Proof.
  intros Hv; cbv zeta; rewrite from_le_le_bytes.
  change (2 ^ (8 * Z.of_nat 2)) with (2 ^ 16).
  destruct (Z.leb_spec 0 v).
  - rewrite Z.mod_small by lia.
    destruct (Z.leb_spec (2 ^ 15) v); lia.
  - replace (v mod 2 ^ 16) with (v + 2 ^ 16)
      by (apply Z.mod_unique with (q := -1); lia).
    destruct (Z.leb_spec (2 ^ 15) (v + 2 ^ 16)); lia.
Qed.






End WavFacts.

(** ** Sound-pack engine *)
Module PackFacts.
Import Pack Fixtures.
Open Scope string_scope.

Example slugify_test : slugify "Test" = "test".
Proof. reflexivity. Qed.

Example slugify_my_pack : slugify "My Pack" = "my-pack".
Proof. reflexivity. Qed.

Example unique_id_suffix : unique_id "my-pack" ["my-pack"; "other"] = "my-pack-2".
Proof. reflexivity. Qed.

Example listPacks_s0 :
  option_map (map id) (match fst (listPacks s0) with Ok l => Some l | Err _ => None end)
  = Some ["default"; "my-custom"; "cherry-mx"].
Proof. reflexivity. Qed.

Example resolve_spacePack :
  resolve (fun _ => true) spacePack "Space" = Sound "sounds/a.wav" 1 /\
  resolve (fun _ => true) spacePack "KeyA" = Sound "sounds/keydown.wav" 1.
Proof. split; reflexivity. Qed.

Example import_extension : extension "C:/Users/me/click.wav" = "wav" /\
                           file_name "C:\Users\me\click.wav" = "click.wav".
Proof. split; reflexivity. Qed.

(** *** Generic facts *)

Lemma bind_ok {A B} (m : M A) (f : A -> M B) s a s' :
  m s = (Ok a, s') -> bind m f s = f a s'.
Proof. intros H; unfold bind; rewrite H; reflexivity. Qed.

Lemma bind_err {A B} (m : M A) (f : A -> M B) s e s' :
  m s = (Err e, s') -> bind m f s = (Err e, s').
Proof. intros H; unfold bind; rewrite H; reflexivity. Qed.

Lemma mem_In x l : mem x l = true <-> In x l.
Proof.
  unfold mem; rewrite existsb_exists; split.
  - intros (y & Hy & E); apply String.eqb_eq in E; subst; exact Hy.
  - intros H; exists x; split; [exact H | apply String.eqb_refl].
Qed.

Lemma NoDup_map_inj {A B} (f : A -> B) (l : list A) x y :
  NoDup (map f l) -> In x l -> In y l -> f x = f y -> x = y.
Proof.
  induction l as [|z l IH]; simpl; [tauto|].
  intros Hnd Hx Hy Hf; inversion Hnd as [|? ? Hnin Hnd']; subst.
  destruct Hx as [<-|Hx], Hy as [<-|Hy]; auto.
  - exfalso; apply Hnin; rewrite Hf; apply in_map; exact Hy.
  - exfalso; apply Hnin; rewrite <- Hf; apply in_map; exact Hx.
Qed.

(** With unique ids, the pack found under an id is the one in the list. *)
Lemma find_id_unique (l : list SoundPack) p :
  NoDup (map id l) -> In p l ->
  find (fun q => String.eqb (id q) (id p)) l = Some p.
Proof.
  intros Hnd Hin.
  destruct (find (fun q => String.eqb (id q) (id p)) l) as [q|] eqn:E.
  - apply find_some in E as [Hq Eq]; apply String.eqb_eq in Eq.
    f_equal; exact (NoDup_map_inj id l q p Hnd Hq Hin Eq).
  - exfalso; eapply find_none in E; [|exact Hin].
    rewrite String.eqb_refl in E; discriminate.
Qed.

Lemma get_pack_unique s p :
  NoDup (pack_ids s) -> In p (packs s) -> get_pack (id p) s = (Ok p, s).
Proof. intros Hnd Hin; unfold get_pack; rewrite find_id_unique; auto. Qed.

Lemma Qle_bool_Qeq x y x' : x == x' -> Qle_bool x y = Qle_bool x' y.
Proof.
  intros E; destruct (Qle_bool x y) eqn:H1, (Qle_bool x' y) eqn:H2; auto.
  - apply Qle_bool_iff in H1; rewrite E in H1; apply Qle_bool_iff in H1; congruence.
  - apply Qle_bool_iff in H2; rewrite <- E in H2; apply Qle_bool_iff in H2; congruence.
Qed.

Lemma Qle_bool_Qeq_r x y y' : y == y' -> Qle_bool x y = Qle_bool x y'.
Proof.
  intros E; destruct (Qle_bool x y) eqn:H1, (Qle_bool x y') eqn:H2; auto.
  - apply Qle_bool_iff in H1; rewrite E in H1; apply Qle_bool_iff in H1; congruence.
  - apply Qle_bool_iff in H2; rewrite <- E in H2; apply Qle_bool_iff in H2; congruence.
Qed.

Lemma clamp_in_range x : 0 <= x <= 1 -> clamp x 0 1 = x.
Proof.
  intros [H0 H1]; unfold clamp, Qltb.
  apply Qle_bool_iff in H0, H1; rewrite H0, H1; reflexivity.
Qed.

Lemma final_volume_master_zero m r : m == 0 -> final_volume m r == 0.
Proof.
  intros Hm; unfold final_volume.
  assert (E : m * r == 0) by (rewrite Hm; ring).
  rewrite clamp_in_range; [exact E|].
  rewrite E; split; discriminate.
Qed.

(** *** Claims *)

(** C1: whenever [keyOverrides] has an entry for the key, resolution uses
    that override's asset and volume, each falling back to the pack
    defaults, whatever the category overrides contain. *)
Theorem resolve_key_override_wins (loaded : AssetRef -> bool) (pack : SoundPack)
  (keyId : KeyId) (ko : KeyOverride) :
  lookup keyId (keyOverrides pack) = Some ko ->
  let a := with_default (ko_asset ko) (d_asset (defaults pack)) in
  let v := with_default (ko_volume ko) (d_volume (defaults pack)) in
  resolve_ref pack keyId = (a, v) /\
  resolve loaded pack keyId = (if loaded a then Sound a v else Silent).
Proof.
  intros Hko a v; unfold resolve, resolve_ref; rewrite Hko; split; reflexivity.
Qed.

Lemma resolve_key_override_wins_witness :
  lookup "Space" (keyOverrides spacePack)
    = Some {| ko_asset := Some "sounds/a.wav"; ko_volume := None |} /\
  resolve (fun _ => true) spacePack "Space" = Sound "sounds/a.wav" 1.
Proof.
  split; [reflexivity|].
  exact (proj2 (resolve_key_override_wins (fun _ => true) spacePack "Space"
                  {| ko_asset := Some "sounds/a.wav"; ko_volume := None |} eq_refl)).
Defined.

(** C2: the final volume is [clamp(masterVolume * resolvedVolume, 0, 1)];
    master 0.5 with resolved 0.8 gives 0.4; a master volume of 0 makes
    every key event silent, whatever the resolved volume. *)
Theorem volume_compositing :
  (forall m r, final_volume m r = clamp (m * r) 0 1) /\
  final_volume (1 # 2) (4 # 5) == 2 # 5 /\
  (forall loaded s pack keyId,
     masterVolume s == 0 -> key_event loaded s pack keyId = Mute).
Proof.
  split; [reflexivity|].
  split; [reflexivity|].
  intros loaded s pack keyId Hm; unfold key_event.
  destruct (enabled s); [|reflexivity]; simpl negb; cbv iota.
  destruct (resolve loaded pack keyId) as [|a v]; [reflexivity|].
  pose proof (final_volume_master_zero _ v Hm) as Hz.
  apply Qeq_bool_iff in Hz; rewrite Hz; reflexivity.
Qed.

Lemma volume_compositing_witness :
  masterVolume s_mute == 0 /\ key_event (fun _ => true) s_mute spacePack "Space" = Mute.
Proof.
  split; [reflexivity|].
  apply (proj2 (proj2 volume_compositing)); reflexivity.
Defined.

(** C3: deleting the active user pack removes it and resets the active pack
    id to ["default"], which names a pack still in the registry. *)
Theorem deletePack_active_resets (s : State) (p : SoundPack) :
  wf s -> In p (packs s) -> source p = User -> activePackId s = id p ->
  exists s',
    deletePack (id p) s = (Ok tt, s') /\
    ~ In (id p) (pack_ids s') /\
    activePackId s' = DEFAULT_PACK_ID /\
    getActivePackId s' = (Ok DEFAULT_PACK_ID, s') /\
    In DEFAULT_PACK_ID (pack_ids s').
Proof.
  intros [Hnd (d & Hd & Hdid & Hdsrc)] Hp Hsrc Hact.
  unfold deletePack.
  rewrite (bind_ok _ _ _ _ _ (get_pack_unique s p Hnd Hp)).
  unfold guard; rewrite Hsrc; simpl source_eqb; cbv iota.
  unfold bind, ret, modify.
  eexists; split; [reflexivity|].
  assert (Hne : id d <> id p).
  { intros E; pose proof (NoDup_map_inj id (packs s) d p Hnd Hd Hp E); subst; congruence. }
  unfold pack_ids; simpl.
  rewrite Hact, String.eqb_refl.
  split; [|split; [reflexivity|split; [reflexivity|]]].
  - rewrite in_map_iff; intros (q & Eq & Hq); apply filter_In in Hq as [_ Hq].
    rewrite Eq, String.eqb_refl in Hq; discriminate.
  - rewrite <- Hdid; apply in_map, filter_In; split; [exact Hd|].
    apply negb_true_iff, String.eqb_neq; exact Hne.
Qed.

Lemma wf_s0 : wf s0.
Proof.
  split.
  - unfold pack_ids; simpl.
    repeat constructor; simpl; intuition discriminate.
  - exists hhkb; simpl; auto.
Qed.

Lemma deletePack_active_resets_witness :
  wf s0 /\ In myCustom (packs s0) /\ source myCustom = User /\
  activePackId s0 = id myCustom /\
  exists s', deletePack (id myCustom) s0 = (Ok tt, s') /\
             ~ In (id myCustom) (pack_ids s') /\ activePackId s' = DEFAULT_PACK_ID /\
             getActivePackId s' = (Ok DEFAULT_PACK_ID, s') /\
             In DEFAULT_PACK_ID (pack_ids s').
Proof.
  split; [exact wf_s0|].
  split; [simpl; auto|].
  split; [reflexivity|].
  split; [reflexivity|].
  apply deletePack_active_resets; [exact wf_s0 | simpl; auto | reflexivity | reflexivity].
Defined.

(** C7: an import whose file has an extension other than mp3, wav and ogg,
    or a size above 5 MB, fails with [ValidationError] and leaves the whole
    state (packs, manifests, pack files) as it was. *)
Theorem importSlot_rejects_invalid (s : State) (packId slotKey path : string) :
  (mem (extension path) ALLOWED_EXTENSIONS = false \/
   exists size, lookup path (userFiles s) = Some size /\ (MAX_FILE_SIZE < size)%N) ->
  importSlot packId slotKey path s = (Err ValidationError, s).
Proof.
  intros H; unfold importSlot.
  destruct (mem (extension path) ALLOWED_EXTENSIONS) eqn:Hext.
  - destruct H as [H|(size & Hsz & Hbig)]; [discriminate|].
    unfold guard, bind, get, lift_opt, ret; rewrite Hsz; cbv beta iota.
    replace (N.leb size MAX_FILE_SIZE) with false
      by (symmetry; apply N.leb_gt; exact Hbig).
    reflexivity.
  - reflexivity.
Qed.

Lemma importSlot_rejects_invalid_witness :
  (mem (extension "C:/Users/me/huge.wav") ALLOWED_EXTENSIONS = false \/
   exists size, lookup "C:/Users/me/huge.wav" (userFiles s0) = Some size /\
                (MAX_FILE_SIZE < size)%N) /\
  importSlot "my-custom" "space" "C:/Users/me/huge.wav" s0 = (Err ValidationError, s0).
Proof.
  assert (H : mem (extension "C:/Users/me/huge.wav") ALLOWED_EXTENSIONS = false \/
              exists size, lookup "C:/Users/me/huge.wav" (userFiles s0) = Some size /\
                           (MAX_FILE_SIZE < size)%N)
    by (right; exists 6000000%N; split; [reflexivity | reflexivity]).
  split; [exact H|].
  exact (importSlot_rejects_invalid s0 "my-custom" "space" "C:/Users/me/huge.wav" H).
Defined.

(** Spec 4.5: importing a file into the per-key slot of a key that a
    category override of the pack already covers is refused and changes
    nothing; once extension, size and pack source pass, the refusal is the
    [ValidationError] of that rule. *)
Theorem importSlot_key_covered (s : State) (packId slotKey path : string)
  (k : KeyId) (p : SoundPack) :
  parse_slot slotKey = Some (SlotKey k) ->
  find (fun q => String.eqb (id q) packId) (packs s) = Some p ->
  existsb (fun '(_, co) => mem k (co_keys co)) (categoryOverrides p) = true ->
  exists e, importSlot packId slotKey path s = (Err e, s) /\
    (mem (extension path) ALLOWED_EXTENSIONS = true ->
     (exists size, lookup path (userFiles s) = Some size /\ (size <= MAX_FILE_SIZE)%N) ->
     source p = User -> e = ValidationError).
Proof.
  intros Hslot Hfind Hcov.
  assert (Hfree : key_slot_free p (SlotKey k) = false)
    by (unfold key_slot_free; rewrite Hcov; reflexivity).
  unfold importSlot, bind, guard, get, lift_opt, ret, fail, get_pack.
  destruct (mem (extension path) ALLOWED_EXTENSIONS) eqn:Hext;
    [|eexists; split; [reflexivity|discriminate]].
  destruct (lookup path (userFiles s)) as [size|] eqn:Hsz;
    [|eexists; split; [reflexivity|intros _ (size & E & _); discriminate]].
  destruct (N.leb size MAX_FILE_SIZE) eqn:Hle.
  2: { eexists; split; [reflexivity|].
       intros _ (size' & E & Hle') _; injection E as <-.
       apply N.leb_le in Hle'; congruence. }
  rewrite Hslot, Hfind.
  destruct (source_eqb (source p) User) eqn:Hsrc.
  2: { eexists; split; [reflexivity|].
       intros _ _ Hu; rewrite Hu in Hsrc; discriminate. }
  cbv beta iota; rewrite Hfree.
  eexists; split; [reflexivity|auto].
Qed.

Lemma importSlot_key_covered_witness :
  (parse_slot "key:Space" = Some (SlotKey "Space") /\
   find (fun q => String.eqb (id q) "space-demo") (packs (set_packs [hhkb; spacePack] s0)) =
     Some spacePack /\
   existsb (fun '(_, co) => mem "Space" (co_keys co)) (categoryOverrides spacePack) = true) /\
  importSlot "space-demo" "key:Space" "C:/Users/me/click.wav" (set_packs [hhkb; spacePack] s0) =
    (Err ValidationError, set_packs [hhkb; spacePack] s0) /\
  exists e, importSlot "space-demo" "key:Space" "C:/Users/me/click.wav"
              (set_packs [hhkb; spacePack] s0) = (Err e, set_packs [hhkb; spacePack] s0) /\
    (mem (extension "C:/Users/me/click.wav") ALLOWED_EXTENSIONS = true ->
     (exists size, lookup "C:/Users/me/click.wav" (userFiles (set_packs [hhkb; spacePack] s0))
                     = Some size /\ (size <= MAX_FILE_SIZE)%N) ->
     source spacePack = User -> e = ValidationError).
Proof.
  assert (H1 : parse_slot "key:Space" = Some (SlotKey "Space")) by reflexivity.
  assert (H2 : find (fun q => String.eqb (id q) "space-demo") (packs (set_packs [hhkb; spacePack] s0)) =
     Some spacePack) by reflexivity.
  assert (H3 : existsb (fun '(_, co) => mem "Space" (co_keys co)) (categoryOverrides spacePack) = true)
    by reflexivity.
  split; [split; [exact H1|split; [exact H2|exact H3]]|].
  split; [vm_compute; reflexivity|].
  exact (importSlot_key_covered (set_packs [hhkb; spacePack] s0) "space-demo" "key:Space"
           "C:/Users/me/click.wav" "Space" spacePack H1 H2 H3).
Defined.

(** C8: a name made only of whitespace (the empty name included; whitespace
    in Rust's Unicode sense, U+3000 or U+00A0 as well as ASCII) is refused
    with [ValidationError] before anything is created or changed. *)
Theorem createPack_blank_rejected (s : State) (name : string) :
  is_blank name = true -> createPack name s = (Err ValidationError, s).
Proof.
  intros H; unfold createPack, guard, bind, fail; rewrite H; reflexivity.
Qed.

Lemma createPack_blank_rejected_witness :
  (is_blank "  " = true /\ createPack "  " s0 = (Err ValidationError, s0)) /\
  (is_blank (String (ascii_of_nat 227) (String (ascii_of_nat 128)
              (String (ascii_of_nat 128) (String (ascii_of_nat 194)
                (String (ascii_of_nat 160) EmptyString))))) = true /\
   createPack (String (ascii_of_nat 227) (String (ascii_of_nat 128)
                (String (ascii_of_nat 128) (String (ascii_of_nat 194)
                  (String (ascii_of_nat 160) EmptyString))))) s0 =
     (Err ValidationError, s0)).
Proof.
  split; split; [reflexivity| |reflexivity|];
    apply createPack_blank_rejected; reflexivity.
Defined.

Lemma find_after_replace (l : list SoundPack) (p : SoundPack) :
  (exists q, In q l /\ id q = id p) ->
  find (fun q => String.eqb (id q) (id p))
       (map (fun q => if String.eqb (id q) (id p) then p else q) l) = Some p.
Proof.
  induction l as [|q l IH]; intros (q' & Hin & Hid); [destruct Hin|].
  simpl; destruct (String.eqb (id q) (id p)) eqn:E.
  - rewrite String.eqb_refl; reflexivity.
  - rewrite E; apply IH.
    destruct Hin as [<-|Hin]; [rewrite Hid, String.eqb_refl in E; discriminate|].
    exists q'; auto.
Qed.

Lemma lookup_remove_key {A} k (m : list (string * A)) : lookup k (remove_key k m) = None.
Proof.
  induction m as [|[k' v] m IH]; [reflexivity|].
  unfold remove_key in *; simpl.
  destruct (String.eqb k k') eqn:E; simpl; [exact IH|rewrite E; exact IH].
Qed.

Lemma lookup_cat_remove_cat c m : lookup_cat c (remove_cat c m) = None.
Proof.
  induction m as [|[c' co] m IH]; [reflexivity|].
  unfold remove_cat in *; simpl.
  destruct (category_eqb c c') eqn:E; simpl; [exact IH|rewrite E; exact IH].
Qed.

Lemma clear_slot_id p slot l : id (set_originalNames l (clear_slot p slot)) = id p.
Proof. destruct slot; reflexivity. Qed.

(** C4: removing the default slot of a user pack points the default asset at
    the silence placeholder, so the slot still holds an asset and keys with
    no override resolve to the placeholder; removing a category or per-key
    slot leaves no override for it. *)
Theorem removeSlot_default_placeholder (s : State) (p : SoundPack)
  (slotKey : string) (slot : Slot) :
  NoDup (pack_ids s) -> In p (packs s) -> source p = User ->
  parse_slot slotKey = Some slot ->
  exists p' s',
    removeSlot (id p) slotKey s = (Ok tt, s') /\
    find (fun q => String.eqb (id q) (id p)) (packs s') = Some p' /\
    match slot with
    | SlotDefault =>
        slot_asset p' SlotDefault = Some SILENCE_PLACEHOLDER /\
        (forall k, lookup k (keyOverrides p') = None ->
           find (fun '(_, co) => mem k (co_keys co)) (categoryOverrides p') = None ->
           fst (resolve_ref p' k) = SILENCE_PLACEHOLDER)
    | _ => slot_asset p' slot = None
    end.
Proof.
  intros Hnd Hin Hsrc Hslot.
  set (p' := set_originalNames (remove_key slotKey (originalNames p)) (clear_slot p slot)).
  exists p', (replace_pack p' s).
  split.
  { unfold removeSlot, lift_opt; rewrite Hslot.
    rewrite (bind_ok _ _ _ _ _ (eq_refl : ret slot s = (Ok slot, s))).
    rewrite (bind_ok _ _ _ _ _ (get_pack_unique s p Hnd Hin)).
    unfold guard; rewrite Hsrc; reflexivity. }
  split.
  { change (packs (replace_pack p' s))
      with (map (fun q => if String.eqb (id q) (id p') then p' else q) (packs s)).
    assert (Hid : id p' = id p) by apply clear_slot_id.
    rewrite <- Hid; apply find_after_replace.
    exists p; split; [exact Hin | symmetry; exact Hid]. }
  destruct slot as [|c|k].
  - split; [reflexivity|].
    intros k Hk Hc; unfold resolve_ref; rewrite Hk, Hc; reflexivity.
  - simpl; rewrite lookup_cat_remove_cat; reflexivity.
  - simpl; rewrite lookup_remove_key; reflexivity.
Qed.

Lemma removeSlot_default_placeholder_witness :
  NoDup (pack_ids s0) /\ In myCustom (packs s0) /\ source myCustom = User /\
  parse_slot "default" = Some SlotDefault /\
  exists p' s',
    removeSlot (id myCustom) "default" s0 = (Ok tt, s') /\
    find (fun q => String.eqb (id q) (id myCustom)) (packs s') = Some p' /\
    slot_asset p' SlotDefault = Some SILENCE_PLACEHOLDER /\
    (forall k, lookup k (keyOverrides p') = None ->
       find (fun '(_, co) => mem k (co_keys co)) (categoryOverrides p') = None ->
       fst (resolve_ref p' k) = SILENCE_PLACEHOLDER).
Proof.
  split; [exact (proj1 wf_s0)|].
  split; [simpl; auto|].
  split; [reflexivity|].
  split; [reflexivity|].
  exact (removeSlot_default_placeholder s0 myCustom "default" SlotDefault
           (proj1 wf_s0) (or_intror (or_introl eq_refl)) eq_refl eq_refl).
Defined.

Lemma append_cancel_l (a b c : string) : a ++ b = a ++ c -> b = c.
Proof. induction a as [|x a IH]; simpl; intros H; [exact H|injection H; auto]. Qed.

Lemma suffixed_inj base : Injective (suffixed base).
Proof.
  intros n m H; unfold suffixed in H.
  apply append_cancel_l, append_cancel_l in H.
  apply (f_equal NilEmpty.uint_of_string) in H.
  rewrite !NilEmpty.usu in H; injection H as H.
  rewrite <- (DecimalNat.Unsigned.of_to n), <- (DecimalNat.Unsigned.of_to m), H.
  reflexivity.
Qed.

(** The generated id is never already taken: among the [length taken + 1]
    distinct candidates [base-2], [base-3], ... one is free. *)
Lemma unique_id_fresh base taken : ~ In (unique_id base taken) taken.
Proof.
  unfold unique_id.
  destruct (mem base taken) eqn:Hb; cbn [negb].
  - destruct (find (fun c => negb (mem c taken))
                   (map (suffixed base) (seq 2 (S (length taken))))) as [c|] eqn:Hf.
    + apply find_some in Hf as [_ Hc]; apply negb_true_iff in Hc.
      intros Hin; apply mem_In in Hin; congruence.
    + exfalso.
      assert (Hincl : incl (map (suffixed base) (seq 2 (S (length taken)))) taken).
      { intros c Hc; pose proof (find_none _ _ Hf c Hc) as Hn.
        apply negb_false_iff, mem_In in Hn; exact Hn. }
      pose proof (NoDup_incl_length
                    (Injective_map_NoDup (suffixed_inj base) (seq_NoDup _ _))
                    Hincl) as Hl.
      rewrite length_map, length_seq in Hl; lia.
  - intros Hin; apply mem_In in Hin; congruence.
Qed.

Lemma unique_id_free base taken : ~ In base taken -> unique_id base taken = base.
Proof.
  intros H; unfold unique_id.
  destruct (mem base taken) eqn:E; [apply mem_In in E; contradiction|reflexivity].
Qed.

Lemma createPack_spec s nm :
  is_blank nm = false ->
  exists p s',
    createPack nm s = (Ok p, s') /\ packs s' = (packs s ++ [p])%list /\
    id p = unique_id (slugify nm) (pack_ids s) /\ source p = User.
Proof.
  intros H; do 2 eexists; split.
  - unfold createPack, guard; rewrite H; reflexivity.
  - repeat split; reflexivity.
Qed.

Lemma createPack_wf s nm p s' :
  wf s -> createPack nm s = (Ok p, s') ->
  wf s' /\ packs s' = (packs s ++ [p])%list /\ id p = unique_id (slugify nm) (pack_ids s).
Proof.
  intros [Hnd (d & Hd & Hdid & Hdsrc)] Hc.
  destruct (is_blank nm) eqn:Hb.
  { unfold createPack, guard, bind, fail in Hc; rewrite Hb in Hc; discriminate. }
  destruct (createPack_spec s nm Hb) as (p1 & s1 & Hc1 & Hps & Hid & _).
  rewrite Hc1 in Hc; injection Hc as <- <-.
  split; [|split; assumption].
  split.
  - unfold pack_ids; rewrite Hps, map_app; simpl.
    apply Permutation_NoDup with (id p1 :: map id (packs s)).
    + apply Permutation_cons_append.
    + constructor; [|exact Hnd].
      rewrite Hid; apply unique_id_fresh.
  - exists d; rewrite Hps; split; [apply in_or_app; left; exact Hd | split; assumption].
Qed.

(** C5 (corrected): from a registry holding neither ["test"] nor ["test-2"],
    two [createPack "Test"] calls return the ids ["test"] and ["test-2"],
    and the pack ids stay unique. *)
Theorem createPack_Test_twice (s : State) :
  wf s -> ~ In "test" (pack_ids s) -> ~ In "test-2" (pack_ids s) ->
  exists p1 s1 p2 s2,
    createPack "Test" s = (Ok p1, s1) /\ createPack "Test" s1 = (Ok p2, s2) /\
    id p1 = "test" /\ id p2 = "test-2" /\ NoDup (pack_ids s2).
Proof.
  intros Hwf Ht Ht2.
  destruct (createPack_spec s "Test" eq_refl) as (p1 & s1 & Hc1 & _ & _ & _).
  destruct (createPack_wf s "Test" p1 s1 Hwf Hc1) as (Hwf1 & Hps1 & Hid1).
  destruct (createPack_spec s1 "Test" eq_refl) as (p2 & s2 & Hc2 & _ & _ & _).
  destruct (createPack_wf s1 "Test" p2 s2 Hwf1 Hc2) as (Hwf2 & _ & Hid2).
  change (slugify "Test") with "test" in Hid1, Hid2.
  rewrite unique_id_free in Hid1 by exact Ht.
  exists p1, s1, p2, s2; repeat split; try assumption; [|exact (proj1 Hwf2)].
  rewrite Hid2; unfold unique_id.
  assert (Hin : In "test" (pack_ids s1))
    by (unfold pack_ids; rewrite Hps1, map_app; simpl map; rewrite Hid1; apply in_or_app; right; left; reflexivity).
  apply mem_In in Hin; rewrite Hin; simpl negb; cbv iota.
  cbn [seq map find].
  change (suffixed "test" 2) with "test-2".
  replace (mem "test-2" (pack_ids s1)) with false; [reflexivity|].
  symmetry; apply not_true_iff_false; rewrite mem_In.
  unfold pack_ids; rewrite Hps1, map_app; simpl map; rewrite Hid1; intros H.
  apply in_app_or in H as [H|[H|[]]]; [exact (Ht2 H) | discriminate].
Qed.

Lemma createPack_Test_twice_witness :
  ~ In "test" (pack_ids s0) /\ ~ In "test-2" (pack_ids s0) /\
  exists p1 s1 p2 s2,
    createPack "Test" s0 = (Ok p1, s1) /\ createPack "Test" s1 = (Ok p2, s2) /\
    id p1 = "test" /\ id p2 = "test-2" /\ NoDup (pack_ids s2).
Proof.
  assert (H1 : ~ In "test" (pack_ids s0)) by (simpl; intuition discriminate).
  assert (H2 : ~ In "test-2" (pack_ids s0)) by (simpl; intuition discriminate).
  split; [exact H1|split; [exact H2|]].
  exact (createPack_Test_twice s0 wf_s0 H1 H2).
Defined.

(** C5, counterexample: a registry with no pack ["test"] but with a pack
    ["test-2"] (a user pack named "Test 2"); the first [createPack "Test"]
    returns ["test"], the second then returns ["test-3"], not ["test-2"]. *)
Lemma createPack_Test_twice_cex :
  wf s_test2 /\ ~ In "test" (pack_ids s_test2) /\
  ~ (exists p1 s1 p2 s2,
        createPack "Test" s_test2 = (Ok p1, s1) /\ createPack "Test" s1 = (Ok p2, s2) /\
        id p1 = "test" /\ id p2 = "test-2") /\
  (exists p1 s1 p2 s2,
        createPack "Test" s_test2 = (Ok p1, s1) /\ createPack "Test" s1 = (Ok p2, s2) /\
        id p1 = "test" /\ id p2 = "test-3").
Proof.
  split; [split|split; [|split]].
  - simpl; repeat constructor; simpl; intuition discriminate.
  - exists hhkb; simpl; auto.
  - simpl; intuition discriminate.
  - intros (p1 & s1 & p2 & s2 & Hc1 & Hc2 & _ & Hid2).
    vm_compute in Hc1; injection Hc1 as <- <-.
    vm_compute in Hc2; injection Hc2 as <- <-.
    vm_compute in Hid2; discriminate.
  - do 4 eexists; split; [cbv; reflexivity|].
    split; [cbv; reflexivity|split; reflexivity].
Qed.

Lemma order_partition (l : list SoundPack) :
  Permutation (filter is_default l ++ filter is_user l ++ filter is_other_bundled l)%list l.
Proof.
  induction l as [|a l IH]; [constructor|].
  unfold is_user, is_other_bundled in *; simpl.
  destruct (is_default a) eqn:Hd; simpl.
  - constructor; exact IH.
  - destruct (source a); simpl.
    + rewrite app_assoc; symmetry; apply Permutation_cons_app.
      rewrite <- app_assoc; symmetry; exact IH.
    + symmetry; apply Permutation_cons_app; symmetry; exact IH.
Qed.

Lemma order_packs_perm l : Permutation (order_packs l) l.
Proof.
  unfold order_packs; eapply perm_trans; [|apply order_partition].
  apply Permutation_app_head, Permutation_app; symmetry; apply NameSort.Permuted_sort.
Qed.

Lemma filter_default_single l d :
  NoDup (map id l) -> In d l -> id d = DEFAULT_PACK_ID -> filter is_default l = [d].
Proof.
  induction l as [|a l IH]; simpl; intros Hnd Hin Hid; [contradiction|].
  inversion Hnd as [|? ? Hnotin Hnd']; subst.
  destruct Hin as [<-|Hin].
  - replace (is_default a) with true by (unfold is_default; rewrite Hid; reflexivity).
    f_equal.
    destruct (filter is_default l) as [|x r] eqn:Hf; [reflexivity|exfalso].
    assert (Hx : In x (filter is_default l)) by (rewrite Hf; left; reflexivity).
    apply filter_In in Hx as [Hx Hxd]; unfold is_default in Hxd; apply String.eqb_eq in Hxd.
    apply Hnotin; rewrite Hid, <- Hxd; apply in_map; exact Hx.
  - destruct (is_default a) eqn:E.
    + exfalso; unfold is_default in E; apply String.eqb_eq in E.
      apply Hnotin; rewrite E, <- Hid; apply in_map; exact Hin.
    + apply IH; assumption.
Qed.

Lemma Forall_sort_filter (f : SoundPack -> bool) (P : SoundPack -> Prop) l :
  (forall p, f p = true -> P p) -> Forall P (NameSort.sort (filter f l)).
Proof.
  intros H; apply Forall_forall; intros p Hp.
  apply (Permutation_in _ (Permutation_sym (NameSort.Permuted_sort _))) in Hp.
  apply filter_In in Hp as [_ Hp]; auto.
Qed.

Lemma order_packs_spec s : wf s -> spec_order (order_packs (packs s)).
Proof.
  intros [Hnd (d & Hd & Hid & _)].
  exists d, (NameSort.sort (filter is_user (packs s))),
    (NameSort.sort (filter is_other_bundled (packs s))).
  unfold order_packs; rewrite (filter_default_single _ d Hnd Hd Hid).
  split; [reflexivity|]. split; [exact Hid|].
  split; [|split; [apply NameSort.Sorted_sort|split; [|apply NameSort.Sorted_sort]]].
  - apply Forall_sort_filter; intros p Hp; unfold is_user in Hp.
    apply andb_prop in Hp as [H1 H2]; split.
    + destruct (source p); [discriminate|reflexivity].
    + unfold is_default in H1; apply negb_true_iff, String.eqb_neq in H1; exact H1.
  - apply Forall_sort_filter; intros p Hp; unfold is_other_bundled in Hp.
    apply andb_prop in Hp as [H1 H2]; split.
    + destruct (source p); [reflexivity|discriminate].
    + unfold is_default in H1; apply negb_true_iff, String.eqb_neq in H1; exact H1.
Qed.

(** C6: in a well-formed registry, and after any successful [createPack],
    [listPacks] returns every pack, the default pack first, then the user
    packs sorted by name, then the other bundled packs sorted by name. *)
Theorem listPacks_order (s : State) :
  wf s ->
  (exists l, listPacks s = (Ok l, s) /\ spec_order l /\ Permutation l (packs s)) /\
  (forall nm p s', createPack nm s = (Ok p, s') ->
     exists l, listPacks s' = (Ok l, s') /\ spec_order l /\ In p l).
Proof.
  intros Hwf; split.
  - exists (order_packs (packs s)); split; [reflexivity|].
    split; [apply order_packs_spec, Hwf|apply order_packs_perm].
  - intros nm p s' Hc.
    destruct (createPack_wf s nm p s' Hwf Hc) as (Hwf' & Hps & _).
    exists (order_packs (packs s')); split; [reflexivity|split; [apply order_packs_spec, Hwf'|]].
    apply (Permutation_in _ (Permutation_sym (order_packs_perm _))).
    rewrite Hps; apply in_or_app; right; left; reflexivity.
Qed.

Lemma listPacks_order_witness :
  wf s0 /\ exists l, listPacks s0 = (Ok l, s0) /\ spec_order l /\ Permutation l (packs s0).
Proof.
  split; [exact wf_s0|].
  exact (proj1 (listPacks_order s0 wf_s0)).
Defined.

End PackFacts.

(** ** IPC mock *)
Module MockFacts.
Import Mock.

(** C9: [toggle_sound] flips [enabled] and returns the new value, leaves
    every other field unchanged, and two calls give back the initial state. *)
Theorem toggle_sound_involution (s : MockState) :
  fst (toggle_sound s) = negb (enabled s) /\
  enabled (snd (toggle_sound s)) = negb (enabled s) /\
  volume (snd (toggle_sound s)) = volume s /\
  activePackId (snd (toggle_sound s)) = activePackId s /\
  packs (snd (toggle_sound s)) = packs s /\
  customSlots (snd (toggle_sound s)) = customSlots s /\
  nextCustomId (snd (toggle_sound s)) = nextCustomId s /\
  fst (toggle_sound (snd (toggle_sound s))) = enabled s /\
  snd (toggle_sound (snd (toggle_sound s))) = s.
Proof.
  destruct s as [e v a ps cs n]; cbn.
  rewrite negb_involutive; repeat split.
Qed.

End MockFacts.

(** ** The other audio scripts *)
Module AudioFacts.
Import Wav WavFacts Audio.
Open Scope Z_scope.

Lemma to_int16_sym_range x : -32767 <= to_int16_sym x <= 32767.
Proof.
  unfold to_int16_sym, js_round.
  pose proof (clamp_sample_range x) as [Hlo Hhi].
  set (s := clamp_sample x) in *.
  split.
  - change (-32767) with (Qfloor (inject_Z (-32767))).
    apply Qfloor_resp_le; unfold inject_Z; lra.
  - assert (Hf := Qfloor_le (s * 32767 + (1 # 2))).
    assert (Hlt : (inject_Z (Qfloor (s * 32767 + (1 # 2))) < inject_Z 32768)%Q)
      by (unfold inject_Z at 2; lra).
    rewrite <- Zlt_Qlt in Hlt; lia.
Qed.

Lemma write_samples_sym_app samples : forall P i,
  length P = (44 + i * 2)%nat ->
  write_samples_sym (P ++ repeat 0 (2 * length samples)) i samples
  = Some (P ++ sample_bytes_sym samples).
Proof.
  unfold sample_bytes_sym.
  induction samples as [|x rest IH]; intros P i HP.
  - simpl; rewrite !app_nil_r; reflexivity.
  - replace (2 * length (x :: rest))%nat with (2 + 2 * length rest)%nat
      by (simpl; lia).
    rewrite repeat_app.
    change (write_samples_sym ?b i (x :: rest)) with
      (let* buffer := writeInt16LE b (to_int16_sym x) (44 + i * 2) in
       write_samples_sym buffer (S i) rest).
    assert (Hw : writeInt16LE (P ++ repeat 0 2 ++ repeat 0 (2 * length rest))
                   (to_int16_sym x) (44 + i * 2)
                 = Some (P ++ le_bytes (to_int16_sym x) 2
                           ++ repeat 0 (2 * length rest))).
    { unfold writeInt16LE, write_int.
      pose proof (to_int16_sym_range x) as Hr.
      replace ((- 2 ^ 15 <=? to_int16_sym x) && (to_int16_sym x <=? 2 ^ 15 - 1))
        with true by (symmetry; apply andb_true_intro; split; apply Z.leb_le; lia).
      rewrite (proj2 (Nat.leb_le _ _)) by (rewrite !length_app, !repeat_length; lia).
      rewrite <- HP, splice_app_end.
      rewrite splice_app_l by (rewrite le_bytes_length; reflexivity).
      reflexivity. }
    rewrite Hw, app_assoc, IH by (rewrite length_app, le_bytes_length, HP; lia).
    rewrite <- app_assoc; reflexivity.
Qed.

Lemma writeWav_eq samples sr :
  36 + 2 * Z.of_nat (length samples) <= 2 ^ 32 - 1 -> 0 <= sr -> sr * 2 <= 2 ^ 32 - 1 ->
  writeWav samples sr
  = Some (header (36 + 2 * Z.of_nat (length samples))
                 (2 * Z.of_nat (length samples)) sr
          ++ sample_bytes_sym samples).
Proof.
  intros Hn H0 Hsr; unfold writeWav, alloc.
  replace (Z.to_nat (44 + Z.of_nat (length samples) * 2))
    with (44 + 2 * length samples)%nat by lia.
  rewrite repeat_app.
  unfold writeUInt32LE, writeUInt16LE.
  do 13 wav_step.
  rewrite write_samples_sym_app by reflexivity.
  f_equal; f_equal.
  replace (Z.of_nat (length samples) * 2) with (2 * Z.of_nat (length samples))
    by lia.
  reflexivity.
Qed.

Lemma sample_bytes_sym_length samples :
  length (sample_bytes_sym samples) = (2 * length samples)%nat.
Proof.
  unfold sample_bytes_sym; induction samples as [|x rest IH]; [reflexivity|].
  cbn [map concat]; rewrite length_app, le_bytes_length, IH; simpl; lia.
Qed.

Lemma sample_bytes_sym_nth samples : forall j,
  (j < length samples)%nat ->
  firstn 2 (skipn (2 * j) (sample_bytes_sym samples))
  = le_bytes (to_int16_sym (nth j samples 0%Q)) 2.
Proof.
  unfold sample_bytes_sym.
  induction samples as [|x rest IH]; intros j Hj; [simpl in Hj; lia|].
  destruct j as [|j].
  - reflexivity.
  - replace (2 * S j)%nat with (S (S (2 * j))) by lia.
    simpl in Hj |- *; apply IH; lia.
Qed.

Lemma readUInt32LE_header_le k riff data sr rest v :
  firstn 4 (skipn k (header riff data sr ++ rest)) = le_bytes v 4 ->
  0 <= v <= 2 ^ 32 - 1 ->
  readUInt32LE (header riff data sr ++ rest) k = v.
Proof.
  intros E Hv; unfold readUInt32LE; rewrite E, from_le_le_bytes, Z.mod_small;
    [reflexivity|].
  change (2 ^ (8 * Z.of_nat 4)) with (2 ^ 32); lia.
Qed.

(** [writeWav] (trimming script): for [n] samples whose RIFF size fits in 32
    bits and a sample rate [sr] with [0 <= 2 sr < 2^32], the buffer has
    [44 + 2n] bytes, the RIFF size, sample rate, byte rate and data size
    fields hold [36 + 2n], [sr], [2 sr] and [2n], and sample [i] is stored
    at [44 + 2i] as [Math.round(clamp(x) * 32767)], a value in
    [-32767, 32767]. *)
Theorem writeWav_layout (samples : list Q) (sr : Z) :
  36 + 2 * Z.of_nat (length samples) <= 2 ^ 32 - 1 -> 0 <= sr -> sr * 2 <= 2 ^ 32 - 1 ->
  exists buf,
    writeWav samples sr = Some buf /\
    length buf = (44 + 2 * length samples)%nat /\
    readUInt32LE buf 4 = 36 + 2 * Z.of_nat (length samples) /\
    readUInt32LE buf 24 = sr /\
    readUInt32LE buf 28 = sr * 2 /\
    readUInt32LE buf 40 = 2 * Z.of_nat (length samples) /\
    (forall i, (i < length samples)%nat ->
       readInt16LE buf (44 + 2 * i) = to_int16_sym (nth i samples 0%Q) /\
       -32767 <= to_int16_sym (nth i samples 0%Q) <= 32767).
Proof.
  intros Hn H0 Hsr.
  set (n := Z.of_nat (length samples)) in *.
  exists (header (36 + 2 * n) (2 * n) sr ++ sample_bytes_sym samples).
  split; [apply writeWav_eq; assumption|].
  split; [rewrite length_app, header_length, sample_bytes_sym_length; reflexivity|].
  split; [apply readUInt32LE_header_le; [reflexivity|lia]|].
  split; [apply readUInt32LE_header_le; [reflexivity|lia]|].
  split; [apply readUInt32LE_header_le; [reflexivity|lia]|].
  split.
  { unfold readUInt32LE.
    change (skipn 40 (header (36 + 2 * n) (2 * n) sr ++ sample_bytes_sym samples))
      with (le_bytes (2 * n) 4 ++ sample_bytes_sym samples).
    rewrite firstn_app, le_bytes_length, Nat.sub_diag, firstn_all2
      by (rewrite le_bytes_length; lia).
    simpl firstn; rewrite app_nil_r, from_le_le_bytes, Z.mod_small; [reflexivity|].
    change (2 ^ (8 * Z.of_nat 4)) with (2 ^ 32); lia. }
  intros i Hi; split; [|apply to_int16_sym_range].
  unfold readInt16LE.
  rewrite skipn_app, header_length, skipn_all2 by (rewrite header_length; lia).
  replace (44 + 2 * i - 44)%nat with (2 * i)%nat by lia.
  rewrite app_nil_l, sample_bytes_sym_nth by exact Hi.
  apply from_le_int16; pose proof (to_int16_sym_range (nth i samples 0%Q)); lia.
Qed.

Lemma writeWav_layout_witness :
  (36 + 2 * Z.of_nat (length [1 # 2; -1]%Q) <= 2 ^ 32 - 1 /\ 0 <= 22050 /\
   22050 * 2 <= 2 ^ 32 - 1) /\
  exists buf,
    writeWav [1 # 2; -1]%Q 22050 = Some buf /\
    length buf = (44 + 2 * length [1 # 2; -1]%Q)%nat /\
    readUInt32LE buf 4 = 36 + 2 * Z.of_nat (length [1 # 2; -1]%Q) /\
    readUInt32LE buf 24 = 22050 /\
    readUInt32LE buf 28 = 22050 * 2 /\
    readUInt32LE buf 40 = 2 * Z.of_nat (length [1 # 2; -1]%Q) /\
    (forall i, (i < length [1 # 2; -1]%Q)%nat ->
       readInt16LE buf (44 + 2 * i) = to_int16_sym (nth i [1 # 2; -1]%Q 0%Q) /\
       -32767 <= to_int16_sym (nth i [1 # 2; -1]%Q 0%Q) <= 32767).
Proof.
  assert (H1 : 36 + 2 * Z.of_nat (length [1 # 2; -1]%Q) <= 2 ^ 32 - 1) by (simpl; lia).
  assert (H2 : 0 <= 22050) by lia.
  assert (H3 : 22050 * 2 <= 2 ^ 32 - 1) by lia.
  split; [split; [exact H1|split; [exact H2|exact H3]]|].
  exact (writeWav_layout [1 # 2; -1]%Q 22050 H1 H2 H3).
Defined.

Lemma clamp_sample_nonneg x : (0 <= x)%Q -> (0 <= clamp_sample x)%Q.
Proof.
  intros H; unfold clamp_sample.
  apply Qle_trans with (Qmin 1 x); [apply Q.min_glb; lra|apply Q.le_max_r].
Qed.

Lemma to_int16_sym_nonneg x : (0 <= x)%Q -> to_int16_sym x = to_int16 x.
Proof.
  intros H; unfold to_int16_sym, to_int16.
  pose proof (clamp_sample_nonneg x H) as Hc.
  apply Qle_bool_iff in Hc; rewrite Hc; reflexivity.
Qed.

Lemma write_samples_sym_nonneg samples :
  Forall (fun x => 0 <= x)%Q samples ->
  forall b i, write_samples_sym b i samples = write_samples b i samples.
Proof.
  induction 1 as [|x rest Hx _ IH]; intros b i; [reflexivity|].
  cbn [write_samples_sym write_samples]; rewrite to_int16_sym_nonneg by exact Hx.
  destruct (writeInt16LE b (to_int16 x) (44 + i * 2)); [apply IH|reflexivity].
Qed.

Lemma clamp_sample_le_m1 x : (x <= -1)%Q -> clamp_sample x = (-1)%Q.
Proof.
  intros H; unfold clamp_sample, Qmin, Qmax, GenericMinMax.gmin, GenericMinMax.gmax.
  replace (1 ?= x)%Q with Gt by (symmetry; apply Qgt_alt; lra).
  destruct (Qcompare_spec (-1) x); [reflexivity|lra|reflexivity].
Qed.

(** [writeWav] and [encodeWav]: on arrays with no negative sample the two
    encoders produce the same bytes (for any sample rate); they differ on
    negative samples: a sample at or below [-1] is stored as [-32768] by
    [encodeWav] and as [-32767] by [writeWav]. *)
Theorem writeWav_vs_encodeWav (samples : list Q) (sr : Z) :
  (Forall (fun x => 0 <= x)%Q samples -> writeWav samples sr = encodeWav samples sr) /\
  (forall x, (x <= -1)%Q -> to_int16 x = -32768 /\ to_int16_sym x = -32767).
Proof.
  split.
  - intros Hs; unfold writeWav, encodeWav; cbv zeta.
    unfold BIT_DEPTH; change (16 / 8) with 2; change (1 * 2) with 2.
    rewrite Z.mul_1_r.
    repeat match goal with
           | |- match ?x with Some _ => _ | None => _ end
                = match ?x with Some _ => _ | None => _ end =>
               destruct x; [|reflexivity]
           end.
    apply write_samples_sym_nonneg; exact Hs.
  - intros x Hx; unfold to_int16_sym, to_int16; rewrite clamp_sample_le_m1 by exact Hx.
    split; reflexivity.
Qed.

Lemma writeWav_vs_encodeWav_witness :
  Forall (fun x => 0 <= x)%Q [1 # 2; 1]%Q /\
  writeWav [1 # 2; 1]%Q 44100 = encodeWav [1 # 2; 1]%Q 44100.
Proof.
  assert (H : Forall (fun x => 0 <= x)%Q [1 # 2; 1]%Q)
    by (repeat constructor; unfold Qle; simpl; lia).
  split; [exact H|].
  exact (proj1 (writeWav_vs_encodeWav [1 # 2; 1]%Q 44100) H).
Defined.

End AudioFacts.

(** ** Rounding to doubles *)
Module Binary64Facts.
Import Binary64.
Open Scope Z_scope.

Lemma pow2_pos e : (0 < pow2 e)%Q.
Proof. apply Qpower_0_lt; reflexivity. Qed.

Lemma pow2_add a b : (pow2 (a + b) == pow2 a * pow2 b)%Q.
Proof. apply Qpower_plus; discriminate. Qed.

Lemma pow2_le a b : a <= b -> (pow2 a <= pow2 b)%Q.
Proof. intros H; apply Qpower_le_compat_l; [exact H | discriminate]. Qed.

Lemma pow2_Z e : 0 <= e -> (pow2 e == inject_Z (2 ^ e))%Q.
Proof. intros H; unfold pow2; rewrite Zpower_Qpower by exact H; reflexivity. Qed.

Lemma pow2_succ e : (pow2 (e + 1) == 2 * pow2 e)%Q.
Proof. rewrite pow2_add; unfold pow2 at 2; simpl; ring. Qed.

Lemma exponent_spec a :
  (0 < a)%Q -> (pow2 (exponent a) <= a < pow2 (exponent a + 1))%Q.
Proof.
  intros Ha; destruct a as [n d].
  assert (Hn : 0 < n) by (unfold Qlt in Ha; simpl in Ha; lia).
  unfold exponent; cbn [Qnum Qden].
  set (ln := Z.log2 n); set (ld := Z.log2 (Zpos d)).
  pose proof (Z.log2_spec n Hn) as [Hn1 Hn2].
  pose proof (Z.log2_spec (Zpos d) eq_refl) as [Hd1 Hd2].
  fold ln in Hn1, Hn2; fold ld in Hd1, Hd2.
  assert (Hl0 : 0 <= ln) by apply Z.log2_nonneg.
  assert (Hd0 : 0 <= ld) by apply Z.log2_nonneg.
  set (P := pow2 (ln - ld)).
  assert (HP : (P * inject_Z (2 ^ ld) == inject_Z (2 ^ ln))%Q).
  { unfold P; rewrite <- pow2_Z, <- pow2_Z, <- pow2_add by assumption.
    replace (ln - ld + ld) with ln by ring; reflexivity. }
  assert (HPpos : (0 < P)%Q) by apply pow2_pos.
  assert (Hx : ((n # d) * inject_Z (Zpos d) == inject_Z n)%Q).
  { rewrite Qmake_Qdiv; field; discriminate. }
  assert (HN1 : (inject_Z (2 ^ ln) <= inject_Z n)%Q) by (rewrite <- Zle_Qle; exact Hn1).
  assert (HN2 : (inject_Z n < 2 * inject_Z (2 ^ ln))%Q).
  { rewrite Z.pow_succ_r in Hn2 by exact Hl0.
    change 2%Q with (inject_Z 2); rewrite <- inject_Z_mult, <- Zlt_Qlt; exact Hn2. }
  assert (HD1 : (inject_Z (2 ^ ld) <= inject_Z (Zpos d))%Q) by (rewrite <- Zle_Qle; exact Hd1).
  assert (HD2 : (inject_Z (Zpos d) < 2 * inject_Z (2 ^ ld))%Q).
  { rewrite Z.pow_succ_r in Hd2 by exact Hd0.
    change 2%Q with (inject_Z 2); rewrite <- inject_Z_mult, <- Zlt_Qlt; exact Hd2. }
  assert (HLd : (0 < inject_Z (2 ^ ld))%Q).
  { change 0%Q with (inject_Z 0); rewrite <- Zlt_Qlt; apply Z.pow_pos_nonneg; lia. }
  assert (Hup : ((n # d) < 2 * P)%Q) by nra.
  assert (Hlo : (P < 2 * (n # d))%Q) by nra.
  destruct (Qle_bool P (n # d)) eqn:E.
  - apply Qle_bool_iff in E; split; [exact E|].
    rewrite pow2_succ; exact Hup.
  - assert (E' : ((n # d) < P)%Q).
    { apply Qnot_le_lt; intros H; apply Qle_bool_iff in H; congruence. }
    replace (ln - ld - 1 + 1) with (ln - ld) by ring.
    split; [|exact E'].
    assert (H2 : (P == 2 * pow2 (ln - ld - 1))%Q).
    { unfold P; rewrite <- pow2_succ; replace (ln - ld - 1 + 1) with (ln - ld) by ring;
        reflexivity. }
    lra.
Qed.

Lemma round_half_even_spec x :
  Qfloor x <= round_half_even x /\
  (inject_Z (round_half_even x) - x <= 1 # 2)%Q /\
  (x - inject_Z (round_half_even x) <= 1 # 2)%Q.
Proof.
  unfold round_half_even.
  pose proof (Qfloor_le x) as H1; pose proof (Qlt_floor x) as H2.
  rewrite inject_Z_plus in H2; change (inject_Z 1) with 1%Q in H2.
  destruct (Qcompare_spec (x - inject_Z (Qfloor x)) (1 # 2)) as [E|E|E].
  - destruct (Z.even (Qfloor x)); rewrite ?inject_Z_plus; change (inject_Z 1) with 1%Q;
      (split; [lia|]); lra.
  - split; [lia|]; lra.
  - rewrite inject_Z_plus; change (inject_Z 1) with 1%Q; split; [lia|]; lra.
Qed.

Lemma round_half_even_Z x k : (x == inject_Z k)%Q -> round_half_even x = k.
Proof.
  intros H; unfold round_half_even.
  assert (Hf : Qfloor x = k) by (rewrite H; apply Qfloor_Z).
  rewrite Hf.
  destruct (Qcompare_spec (x - inject_Z k) (1 # 2)) as [E|E|E]; [lra|reflexivity|lra].
Qed.

Lemma pow2_53 : (pow2 (-53) <= 1 # 1024)%Q.
Proof. apply Qle_bool_iff; vm_compute; reflexivity. Qed.

Lemma pow2_1075 : (pow2 (-1075) <= 1 # 1024)%Q.
Proof. apply Qle_bool_iff; vm_compute; reflexivity. Qed.

(** Rounding error of [b64_round] on a positive input. *)
Lemma b64_round_err x :
  (0 < x)%Q ->
  (0 <= b64_round x)%Q /\
  (b64_round x - x <= x * pow2 (-53) + pow2 (-1075))%Q /\
  (x - b64_round x <= x * pow2 (-53) + pow2 (-1075))%Q.
Proof.
  intros Hx; unfold b64_round.
  replace (Qeq_bool x 0) with false
    by (symmetry; apply not_true_iff_false; intros E; apply Qeq_bool_iff in E; lra).
  replace (Qle_bool 0 x) with true by (symmetry; apply Qle_bool_iff; lra).
  cbv zeta.
  assert (Ha : (Qabs x == x)%Q) by (apply Qabs_pos; lra).
  set (a := Qabs x) in *.
  assert (Hapos : (0 < a)%Q) by lra.
  pose proof (exponent_spec a Hapos) as [He1 _].
  set (e := exponent a) in *.
  set (q := Z.max (e - 52) (-1074)).
  assert (Hq : (pow2 q <= a * pow2 (-52) + pow2 (-1074))%Q).
  { unfold q; destruct (Z.max_spec (e - 52) (-1074)) as [[_ ->]|[_ ->]].
    - assert (0 <= a * pow2 (-52))%Q by (apply Qmult_le_0_compat; [lra|apply Qlt_le_weak, pow2_pos]). lra.
    - assert (E : (pow2 (e - 52) == pow2 e * pow2 (-52))%Q)
        by (rewrite <- pow2_add; reflexivity).
      pose proof (pow2_pos (-52)); pose proof (pow2_pos (-1074)); nra. }
  assert (Hc1 : (pow2 (-52) == 2 * pow2 (-53))%Q) by (vm_compute; reflexivity).
  assert (Hc2 : (pow2 (-1074) == 2 * pow2 (-1075))%Q) by (vm_compute; reflexivity).
  pose proof (pow2_pos q) as Hqpos.
  pose proof (round_half_even_spec (a / pow2 q)) as (Hr0 & Hr1 & Hr2).
  set (m := round_half_even (a / pow2 q)) in *.
  assert (Hdiv : (a / pow2 q * pow2 q == a)%Q) by (field; lra).
  assert (Hm0 : (0 <= inject_Z m)%Q).
  { change 0%Q with (inject_Z 0); rewrite <- Zle_Qle.
    assert (0 <= Qfloor (a / pow2 q)); [|lia].
    change 0 with (Qfloor 0); apply Qfloor_resp_le.
    apply Qlt_le_weak, Qlt_shift_div_l; [exact Hqpos | lra]. }
  set (t := (a / pow2 q)%Q) in *.
  assert (E1 : (inject_Z m * pow2 q - a <= pow2 q * (1 # 2))%Q).
  { setoid_replace (inject_Z m * pow2 q - a)%Q with ((inject_Z m - t) * pow2 q)%Q
      by (rewrite <- Hdiv; ring).
    apply (proj2 (Qmult_le_r _ _ _ Hqpos)) in Hr1. lra. }
  assert (E2 : (a - inject_Z m * pow2 q <= pow2 q * (1 # 2))%Q).
  { setoid_replace (a - inject_Z m * pow2 q)%Q with ((t - inject_Z m) * pow2 q)%Q
      by (rewrite <- Hdiv; ring).
    apply (proj2 (Qmult_le_r _ _ _ Hqpos)) in Hr2. lra. }
  assert (E3 : (a * pow2 (-52) == 2 * (x * pow2 (-53)))%Q) by (rewrite Hc1, Ha; ring).
  split; [|split]; [apply Qmult_le_0_compat; lra | lra | lra].
Qed.

Lemma b64_round_zero x : (x == 0)%Q -> b64_round x = 0%Q.
Proof.
  intros H; unfold b64_round; replace (Qeq_bool x 0) with true; [reflexivity|].
  symmetry; apply Qeq_bool_iff; exact H.
Qed.

Lemma pow2_opp e : (pow2 e * pow2 (- e) == 1)%Q.
Proof. rewrite <- pow2_add; replace (e + - e) with 0 by ring; reflexivity. Qed.

(** Integers up to [2^53] are binary64 values. *)
Lemma b64_round_int x n :
  0 <= n <= 2 ^ 53 -> (x == inject_Z n)%Q -> (b64_round x == x)%Q.
Proof.
  intros Hn Hx.
  destruct (Z.eq_dec n 0) as [->|Hn0].
  { rewrite b64_round_zero by exact Hx; rewrite Hx; reflexivity. }
  assert (Hxpos : (1 <= x)%Q).
  { rewrite Hx; change 1%Q with (inject_Z 1); rewrite <- Zle_Qle; lia. }
  unfold b64_round.
  replace (Qeq_bool x 0) with false
    by (symmetry; apply not_true_iff_false; intros E; apply Qeq_bool_iff in E; lra).
  replace (Qle_bool 0 x) with true by (symmetry; apply Qle_bool_iff; lra).
  cbv zeta.
  assert (Ha : (Qabs x == x)%Q) by (apply Qabs_pos; lra).
  set (a := Qabs x) in *.
  pose proof (exponent_spec a ltac:(lra)) as [He1 He2].
  set (e := exponent a) in *.
  assert (Hxle : (x <= pow2 53)%Q).
  { rewrite Hx, pow2_Z by lia; rewrite <- Zle_Qle; lia. }
  assert (He0 : 0 <= e).
  { destruct (Z_lt_le_dec e 0) as [Hlt|]; [|assumption].
    pose proof (pow2_le (e + 1) 0 ltac:(lia)); change (pow2 0) with 1%Q in *; lra. }
  assert (He53 : e <= 53).
  { destruct (Z_le_gt_dec e 53) as [|Hgt]; [assumption|].
    pose proof (pow2_le 54 e ltac:(lia)).
    assert (pow2 53 < pow2 54)%Q by (vm_compute; reflexivity).
    lra. }
  replace (Z.max (e - 52) (-1074)) with (e - 52) by lia.
  destruct (Z_le_gt_dec (e - 52) 0) as [Hq|Hq].
  - set (q := e - 52) in *.
    assert (Hk : (a / pow2 q == inject_Z (n * 2 ^ (- q)))%Q).
    { rewrite inject_Z_mult, <- pow2_Z by lia.
      rewrite Ha, <- Hx; unfold Qdiv, pow2; rewrite Qpower_opp; reflexivity. }
    rewrite (round_half_even_Z _ _ Hk), inject_Z_mult, <- pow2_Z by lia.
    rewrite <- Hx, <- Qmult_assoc, (Qmult_comm (pow2 (- q))), pow2_opp; ring.
  - assert (Ee : e = 53) by lia. rewrite Ee in *.
    assert (Hn53 : n = 2 ^ 53).
    { assert (pow2 53 <= inject_Z n)%Q by lra.
      rewrite pow2_Z in H by lia; rewrite <- Zle_Qle in H; lia. }
    subst n.
    assert (Hk : (a / pow2 (53 - 52) == inject_Z (2 ^ 52))%Q)
      by (rewrite Ha, Hx; vm_compute; reflexivity).
    rewrite (round_half_even_Z _ _ Hk), Hx; vm_compute; reflexivity.
Qed.

Lemma b64_round_nonneg x : (0 <= x)%Q -> (0 <= b64_round x)%Q.
Proof.
  intros H; destruct (Qeq_dec x 0) as [E|E].
  - rewrite b64_round_zero by exact E; lra.
  - apply b64_round_err; lra.
Qed.

(** No overflow below [2^1000]. *)
Lemma b64_finite x :
  (0 <= x)%Q -> (x <= pow2 1000)%Q -> b64 x = Some (b64_round x).
Proof.
  intros H0 H1; unfold b64.
  replace (Qle_bool (pow2 1024) (Qabs (b64_round x))) with false; [reflexivity|].
  symmetry; apply not_true_iff_false; intros E; apply Qle_bool_iff in E.
  rewrite Qabs_pos in E by (apply b64_round_nonneg; exact H0).
  assert (Hc : (pow2 1000 + pow2 1000 * 1 + 1 < pow2 1024)%Q)
    by (vm_compute; reflexivity).
  destruct (Qeq_dec x 0) as [Z0|Z0].
  - rewrite b64_round_zero in E by exact Z0. pose proof (pow2_pos 1024); lra.
  - destruct (b64_round_err x ltac:(lra)) as (_ & E1 & _).
    pose proof pow2_53; pose proof pow2_1075; pose proof (pow2_pos (-53)).
    assert (x * pow2 (-53) <= pow2 1000 * 1)%Q by nra.
    lra.
Qed.

Lemma pow2_53_eq : (pow2 (-53) == 1 # 9007199254740992)%Q.
Proof. vm_compute; reflexivity. Qed.

Lemma pow2_1075_le : (pow2 (-1075) <= 1 # 9007199254740992)%Q.
Proof. apply Qle_bool_iff; vm_compute; reflexivity. Qed.

Lemma b64_some x y : b64 x = Some y -> y = b64_round x.
Proof. unfold b64; destruct (Qle_bool _ _); congruence. Qed.

(** For [i < Math.floor(n / r)] with that length at most [2^51], the double
    [i * r] lies in [[0, n)]: the loop of [pitchShift] reads inside its input. *)
Lemma read_in_range (n i : Z) (r : Q) :
  (0 < r)%Q -> 0 <= n -> 0 <= i ->
  i + 1 <= Qfloor (b64_round (inject_Z n / r)) ->
  Qfloor (b64_round (inject_Z n / r)) <= 2 ^ 51 ->
  (inject_Z i * r <= 2 * inject_Z n)%Q /\
  (0 <= b64_round (inject_Z i * r) < inject_Z n)%Q.
Proof.
  intros Hr Hn0 Hi H1 H2.
  set (x := (inject_Z n / r)%Q) in *.
  set (xr := b64_round x) in *.
  assert (Ex : (x * r == inject_Z n)%Q) by (unfold x; field; lra).
  assert (HnQ : (inject_Z 0 <= inject_Z n)%Q) by (rewrite <- Zle_Qle; lia). change (inject_Z 0) with 0%Q in HnQ.
  assert (Hx0 : (0 <= x)%Q) by (unfold x, Qdiv; apply Qmult_le_0_compat;
    [lra|apply Qlt_le_weak, Qinv_lt_0_compat; lra]).
  assert (Hxpos : (0 < x)%Q).
  { destruct (Qeq_dec x 0) as [E|E]; [|lra].
    exfalso; unfold xr in H1; rewrite (b64_round_zero x E) in H1.
    change (Qfloor 0) with 0 in H1; lia. }
  destruct (b64_round_err x Hxpos) as (_ & Eup & Elo); fold xr in Eup, Elo.
  rewrite pow2_53_eq in Eup, Elo.
  pose proof pow2_1075_le as He. pose proof (pow2_pos (-1075)) as He0.
  set (e := pow2 (-1075)) in *.
  assert (H1q : (inject_Z i + 1 <= xr)%Q).
  { apply Qle_trans with (inject_Z (Qfloor xr)); [|apply Qfloor_le].
    change (inject_Z i + 1)%Q with (inject_Z i + inject_Z 1)%Q; rewrite <- inject_Z_plus, <- Zle_Qle; exact H1. }
  assert (H2q : (xr < inject_Z (2 ^ 51) + 1)%Q).
  { apply Qlt_le_trans with (inject_Z (Qfloor xr + 1)); [apply Qlt_floor|].
    apply Qle_trans with (inject_Z (2 ^ 51 + 1)); [rewrite <- Zle_Qle; lia|rewrite inject_Z_plus; apply Qle_refl]. }
  change (inject_Z (2 ^ 51)) with (2251799813685248 # 1)%Q in H2q.
  assert (Hxb : (x < 2251799813685250)%Q) by lra.
  assert (Hnr : (inject_Z n < 2251799813685250 * r)%Q).
  { rewrite <- Ex. apply Qmult_lt_compat_r; lra. }
  assert (Hir : ((inject_Z i + 1) * r <= (x + x * (1 # 9007199254740992) + e) * r)%Q)
    by (apply Qmult_le_compat_r; lra).
  assert (Hir' : (inject_Z i * r + r <= inject_Z n + inject_Z n * (1 # 9007199254740992) + e * r)%Q).
  { rewrite <- Ex. setoid_replace (x * r + x * r * (1 # 9007199254740992) + e * r)%Q
      with ((x + x * (1 # 9007199254740992) + e) * r)%Q by ring.
    setoid_replace (inject_Z i * r + r)%Q with ((inject_Z i + 1) * r)%Q by ring.
    exact Hir. }
  assert (HiQ : (inject_Z 0 <= inject_Z i)%Q) by (rewrite <- Zle_Qle; lia). change (inject_Z 0) with 0%Q in HiQ.
  assert (HA : (0 <= inject_Z i * r)%Q) by (apply Qmult_le_0_compat; lra).
  assert (Her : (e * r <= (1 # 9007199254740992) * r)%Q) by (apply Qmult_le_compat_r; lra).
  assert (Hn1 : (1 <= inject_Z n)%Q).
  { destruct (Z.eq_dec n 0) as [->|Hne].
    - exfalso. assert (x == 0)%Q by (unfold x, Qdiv; simpl; ring). lra.
    - change 1%Q with (inject_Z 1); rewrite <- Zle_Qle; lia. }
  set (A := (inject_Z i * r)%Q) in *.
  destruct (Qeq_dec A 0) as [EA|EA].
  - split; [lra|]. rewrite (b64_round_zero A EA); lra.
  - destruct (b64_round_err A ltac:(lra)) as (Ha0 & Aup & _).
    rewrite pow2_53_eq in Aup. fold e in Aup.
    split; [lra|]. split; [exact Ha0|]. lra.
Qed.

End Binary64Facts.

(** ** Piano variants *)
Module PianoFacts.
Import Wav WavFacts Binary64 Binary64Facts Audio.
Open Scope Z_scope.

Lemma nth_z_nth l z :
  0 <= z < Z.of_nat (length l) -> nth_z l z = Some (nth (Z.to_nat z) l 0%Q).
Proof.
  intros [H0 H1]; unfold nth_z.
  rewrite (proj2 (Z.ltb_ge _ _) H0).
  apply nth_error_nth'; lia.
Qed.

Lemma all_some_map_seq (f : nat -> option Q) s n :
  (forall i, (i < n)%nat -> f (s + i)%nat <> None) ->
  exists vs, all_some (map f (seq s n)) = Some vs /\ length vs = n /\
    forall i, (i < n)%nat -> f (s + i)%nat = Some (nth i vs 0%Q).
Proof.
  revert s; induction n as [|n IH]; intros s H.
  - exists []; repeat split; intros; lia.
  - destruct (f s) as [v|] eqn:Ef.
    2: { exfalso; apply (H 0%nat); [lia|rewrite Nat.add_0_r; exact Ef]. }
    destruct (IH (S s)) as (vs & Hvs & Hl & Hn).
    { intros i Hi; replace (S s + i)%nat with (s + S i)%nat by lia; apply H; lia. }
    exists (v :: vs); cbn [seq map all_some]; rewrite Ef, Hvs.
    split; [reflexivity|split; [simpl; lia|]].
    intros [|i] Hi; [rewrite Nat.add_0_r; exact Ef|].
    cbn [nth]; replace (s + S i)%nat with (S s + i)%nat by lia; apply Hn; lia.
Qed.

Lemma Qdiv_pos_nonneg (a b : Q) : (0 <= a)%Q -> (0 < b)%Q -> (0 <= a / b)%Q.
Proof.
  intros Ha Hb; unfold Qdiv; apply Qmult_le_0_compat; [exact Ha|].
  apply Qlt_le_weak, Qinv_lt_0_compat, Hb.
Qed.

Lemma inject_nat_nonneg (i : nat) : (0 <= inject_Z (Z.of_nat i))%Q.
Proof. unfold Qle, inject_Z; simpl; lia. Qed.

Lemma Qfloor_nonneg (x : Q) : (0 <= x)%Q -> 0 <= Qfloor x.
Proof. intros H; apply (Qfloor_resp_le 0 x) in H; exact H. Qed.

Lemma f32_alloc_ok_iff len :
  f32_alloc_ok len = true <-> 0 <= len /\ len * 4 <= MAX_BYTE_LENGTH.
Proof. unfold f32_alloc_ok; rewrite andb_true_iff, !Z.leb_le; tauto. Qed.

Lemma pitch_len_some n ratio newLen :
  pitch_len n ratio = Some newLen -> newLen = Qfloor (b64_round (inject_Z n / ratio)).
Proof.
  unfold pitch_len; destruct (b64 _) as [x|] eqn:E; [|discriminate].
  intros H; injection H as <-; rewrite (b64_some _ _ E); reflexivity.
Qed.

(** Each double [i * ratio] the loop computes is finite and lies in
    [[0, samples.length)], for every [i < newLen]. *)
Lemma pitch_read (xs : list Q) (ratio : Q) (newLen : Z) (i : nat) :
  (0 < ratio)%Q -> f32_alloc_ok (Z.of_nat (length xs)) = true ->
  pitch_len (Z.of_nat (length xs)) ratio = Some newLen ->
  f32_alloc_ok newLen = true -> Z.of_nat i < newLen ->
  exists y, b64 (inject_Z (Z.of_nat i) * ratio) = Some y /\
    (0 <= y < inject_Z (Z.of_nat (length xs)))%Q.
Proof.
  intros Hr Hn Hp Ha Hi.
  apply f32_alloc_ok_iff in Hn, Ha; unfold MAX_BYTE_LENGTH in Hn, Ha.
  apply pitch_len_some in Hp.
  set (n := Z.of_nat (length xs)) in *.
  assert (H51 : Qfloor (b64_round (inject_Z n / ratio)) <= 2 ^ 51)
    by (rewrite <- Hp; lia).
  destruct (read_in_range n (Z.of_nat i) ratio Hr ltac:(lia) ltac:(lia)
              ltac:(rewrite <- Hp; lia) H51) as (Hle & H0 & H1).
  exists (b64_round (inject_Z (Z.of_nat i) * ratio)); split; [|split; assumption].
  apply b64_finite.
  - apply Qmult_le_0_compat; [apply inject_nat_nonneg|lra].
  - apply Qle_trans with (2 * inject_Z n)%Q; [exact Hle|].
    rewrite pow2_Z by lia.
    change (2 * inject_Z n)%Q with (inject_Z 2 * inject_Z n)%Q.
    rewrite <- inject_Z_mult, <- Zle_Qle.
    assert (2 ^ 54 <= 2 ^ 1000) by (apply Z.pow_le_mono_r; lia).
    lia.
Qed.

Lemma pitch_sample_convex xs ratio newLen i :
  (0 < ratio)%Q -> f32_alloc_ok (Z.of_nat (length xs)) = true ->
  pitch_len (Z.of_nat (length xs)) ratio = Some newLen ->
  f32_alloc_ok newLen = true -> Z.of_nat i < newLen ->
  exists a b f, In a xs /\ In b xs /\ (0 <= f < 1)%Q /\
    pitch_sample xs ratio i = Some (a * (1 - f) + b * f)%Q.
Proof.
  intros Hr Hn Hp Ha Hi.
  destruct (pitch_read xs ratio newLen i Hr Hn Hp Ha Hi) as (y & Ey & Hy0 & Hy1).
  unfold pitch_sample; rewrite Ey.
  set (i0 := Qfloor y).
  assert (Hidx : 0 <= i0 < Z.of_nat (length xs)).
  { split; [apply Qfloor_nonneg; exact Hy0|].
    rewrite Zlt_Qlt; apply Qle_lt_trans with y; [apply Qfloor_le|exact Hy1]. }
  rewrite (nth_z_nth xs i0) by lia.
  rewrite (nth_z_nth xs (Z.min (i0 + 1) (Z.of_nat (length xs) - 1))) by lia.
  exists (nth (Z.to_nat i0) xs 0%Q),
    (nth (Z.to_nat (Z.min (i0 + 1) (Z.of_nat (length xs) - 1))) xs 0%Q),
    (y - inject_Z i0)%Q.
  split; [apply nth_In; lia|].
  split; [apply nth_In; lia|].
  split; [|reflexivity].
  pose proof (Qfloor_le y) as Hf1.
  pose proof (Qlt_floor y) as Hf2.
  rewrite inject_Z_plus in Hf2; unfold inject_Z at 2 in Hf2.
  fold i0 in Hf1, Hf2; split; lra.
Qed.

Lemma pitchShift_pos xs ratio newLen :
  (0 < ratio)%Q -> f32_alloc_ok (Z.of_nat (length xs)) = true ->
  pitch_len (Z.of_nat (length xs)) ratio = Some newLen ->
  f32_alloc_ok newLen = true ->
  exists vs, pitchShift xs ratio = Some vs /\ length vs = Z.to_nat newLen /\
    forall i, (i < length vs)%nat -> pitch_sample xs ratio i = Some (nth i vs 0%Q).
Proof.
  intros Hr Hn Hp Ha; unfold pitchShift.
  replace (Qle_bool ratio 0) with false
    by (symmetry; apply not_true_iff_false; rewrite Qle_bool_iff; lra).
  rewrite Hp, Ha.
  pose proof (proj1 (f32_alloc_ok_iff _) Ha) as [Hnl _].
  destruct (all_some_map_seq (pitch_sample xs ratio) 0 (Z.to_nat newLen)) as (vs & H1 & H2 & H3).
  { intros i Hi; simpl.
    destruct (pitch_sample_convex xs ratio newLen i Hr Hn Hp Ha) as (a & b & f & _ & _ & _ & E);
      [lia|rewrite E; discriminate]. }
  exists vs; split; [exact H1|split; [exact H2|]].
  intros i Hi; apply (H3 i); lia.
Qed.

Lemma pitchShift_overflow (xs : list Q) (ratio : Q) :
  (0 < ratio)%Q ->
  (pitch_len (Z.of_nat (length xs)) ratio = None \/
   exists newLen, pitch_len (Z.of_nat (length xs)) ratio = Some newLen /\
     f32_alloc_ok newLen = false) ->
  pitchShift xs ratio = None.
Proof.
  intros Hr H; unfold pitchShift.
  replace (Qle_bool ratio 0) with false
    by (symmetry; apply not_true_iff_false; rewrite Qle_bool_iff; lra).
  destruct H as [E|(newLen & E & Ha)]; rewrite E; [reflexivity|rewrite Ha; reflexivity].
Qed.

(** [pitchShift] with a positive ratio, on an input a [Float32Array] can
    hold.  When [newLen = Math.floor(samples.length / ratio)], computed in
    doubles, is finite and a valid [Float32Array] length, the loop never
    reads outside its input and returns [newLen] samples; when the quotient
    is [Infinity] or [newLen] is over [(2^53 - 1) / 4], it throws. *)
Theorem pitchShift_length (samples : list Q) (ratio : Q) :
  (0 < ratio)%Q -> f32_alloc_ok (Z.of_nat (length samples)) = true ->
  (forall newLen, pitch_len (Z.of_nat (length samples)) ratio = Some newLen ->
     f32_alloc_ok newLen = true ->
     exists out, pitchShift samples ratio = Some out /\ Z.of_nat (length out) = newLen) /\
  ((pitch_len (Z.of_nat (length samples)) ratio = None \/
    exists newLen, pitch_len (Z.of_nat (length samples)) ratio = Some newLen /\
      f32_alloc_ok newLen = false) ->
   pitchShift samples ratio = None).
Proof.
  intros Hr Hn; split; [|apply pitchShift_overflow, Hr].
  intros newLen Hp Ha.
  destruct (pitchShift_pos samples ratio newLen Hr Hn Hp Ha) as (vs & H1 & H2 & _).
  exists vs; split; [exact H1|].
  pose proof (proj1 (f32_alloc_ok_iff _) Ha); lia.
Qed.

Lemma pitchShift_length_witness :
  ((0 < b64_round (1 # 10))%Q /\ f32_alloc_ok (Z.of_nat (length ([1; 2; 3]%Q : list Q))) = true) /\
  pitch_len (Z.of_nat (length ([1; 2; 3]%Q : list Q))) (b64_round (1 # 10)) = Some 30 /\
  (forall newLen, pitch_len (Z.of_nat (length ([1; 2; 3]%Q : list Q))) (b64_round (1 # 10)) = Some newLen ->
     f32_alloc_ok newLen = true ->
     exists out, pitchShift [1; 2; 3]%Q (b64_round (1 # 10)) = Some out /\
       Z.of_nat (length out) = newLen) /\
  ((pitch_len (Z.of_nat (length ([1; 2; 3]%Q : list Q))) (b64_round (1 # 10)) = None \/
    exists newLen, pitch_len (Z.of_nat (length ([1; 2; 3]%Q : list Q))) (b64_round (1 # 10)) = Some newLen /\
      f32_alloc_ok newLen = false) ->
   pitchShift [1; 2; 3]%Q (b64_round (1 # 10)) = None).
Proof.
  assert (H1 : (0 < b64_round (1 # 10))%Q) by (vm_compute; reflexivity).
  assert (H2 : f32_alloc_ok (Z.of_nat (length ([1; 2; 3]%Q : list Q))) = true) by reflexivity.
  split; [split; [exact H1|exact H2]|].
  split; [vm_compute; reflexivity|].
  exact (pitchShift_length ([1; 2; 3]%Q : list Q) (b64_round (1 # 10)) H1 H2).
Defined.

(** [pitchShift] keeps every bound of its input: if all input samples lie
    in [[lo, hi]] (for instance [[-1, 1]]), so do all output samples, each
    being a convex combination of two input samples.  This holds whenever
    the call returns, that is for a positive ratio, an input a
    [Float32Array] can hold and a finite [newLen] valid as a
    [Float32Array] length. *)
Theorem pitchShift_bounds (samples : list Q) (ratio lo hi : Q) (newLen : Z) :
  (0 < ratio)%Q -> f32_alloc_ok (Z.of_nat (length samples)) = true ->
  pitch_len (Z.of_nat (length samples)) ratio = Some newLen ->
  f32_alloc_ok newLen = true ->
  Forall (fun x => lo <= x <= hi)%Q samples ->
  exists out, pitchShift samples ratio = Some out /\
    Forall (fun x => lo <= x <= hi)%Q out.
Proof.
  intros Hr Hn Hp Ha Hs.
  destruct (pitchShift_pos samples ratio newLen Hr Hn Hp Ha) as (vs & H1 & H2 & H3).
  exists vs; split; [exact H1|].
  apply Forall_forall; intros y Hy.
  destruct (In_nth vs y 0%Q Hy) as (i & Hi & <-).
  pose proof (H3 i Hi) as E.
  destruct (pitch_sample_convex samples ratio newLen i Hr Hn Hp Ha) as (a & b & f & Ha' & Hb & Hf & E');
    [rewrite H2 in Hi; pose proof (proj1 (f32_alloc_ok_iff _) Ha); lia|].
  rewrite E' in E; injection E as <-.
  rewrite Forall_forall in Hs.
  destruct (Hs a Ha'), (Hs b Hb).
  split; nra.
Qed.

Lemma pitchShift_bounds_witness :
  ((0 < 3 # 2)%Q /\ f32_alloc_ok (Z.of_nat (length ([1; 1 # 2; -1; 0]%Q : list Q))) = true /\
   pitch_len (Z.of_nat (length ([1; 1 # 2; -1; 0]%Q : list Q))) (3 # 2) = Some 2 /\
   f32_alloc_ok 2 = true /\ Forall (fun x => -1 <= x <= 1)%Q [1; 1 # 2; -1; 0]%Q) /\
  exists out, pitchShift [1; 1 # 2; -1; 0]%Q (3 # 2) = Some out /\
    Forall (fun x => -1 <= x <= 1)%Q out.
Proof.
  assert (H1 : (0 < 3 # 2)%Q) by (unfold Qlt; simpl; lia).
  assert (H2 : f32_alloc_ok (Z.of_nat (length ([1; 1 # 2; -1; 0]%Q : list Q))) = true) by reflexivity.
  assert (H3 : pitch_len (Z.of_nat (length ([1; 1 # 2; -1; 0]%Q : list Q))) (3 # 2) = Some 2)
    by (vm_compute; reflexivity).
  assert (H4 : f32_alloc_ok 2 = true) by reflexivity.
  assert (H5 : Forall (fun x => -1 <= x <= 1)%Q [1; 1 # 2; -1; 0]%Q)
    by (repeat constructor; unfold Qle; simpl; lia).
  split; [repeat split; assumption|].
  exact (pitchShift_bounds [1; 1 # 2; -1; 0]%Q (3 # 2) (-1) 1 2 H1 H2 H3 H4 H5).
Defined.

(** With ratio 1 the double quotient [n / 1] is [n] itself. *)
Lemma pitch_len_unit n : 0 <= n <= 2 ^ 53 -> pitch_len n 1 = Some n.
Proof.
  intros Hn; unfold pitch_len.
  assert (E : (inject_Z n / 1 == inject_Z n)%Q) by field.
  assert (HnQ : (inject_Z 0 <= inject_Z n)%Q) by (rewrite <- Zle_Qle; lia).
  change (inject_Z 0) with 0%Q in HnQ.
  rewrite b64_finite.
  - cbn [option_map]; f_equal.
    rewrite (Qfloor_comp _ (inject_Z n)); [apply Qfloor_Z|].
    rewrite (b64_round_int _ n Hn E); exact E.
  - rewrite E; exact HnQ.
  - rewrite E, pow2_Z by lia; rewrite <- Zle_Qle.
    assert (2 ^ 53 <= 2 ^ 1000) by (apply Z.pow_le_mono_r; lia); lia.
Qed.

(** The ratio-1 call needs an input a [Float32Array] can hold: [2^51]
    samples give [newLen = 2^51], and the allocation throws. *)
Lemma pitchShift_unit_ratio_too_long :
  pitchShift (repeat 0%Q (Z.to_nat (2 ^ 51))) 1 = None.
Proof.
  unfold pitchShift.
  replace (Qle_bool 1 0) with false by reflexivity.
  rewrite repeat_length, Z2Nat.id by lia.
  rewrite pitch_len_unit by lia.
  replace (f32_alloc_ok (2 ^ 51)) with false by reflexivity.
  reflexivity.
Qed.

(** [pitchShift] with ratio 1 returns its input unchanged (sample by sample
    as numbers), for an input a [Float32Array] can hold: [newLen] is the
    input length, each [srcIdx = i * 1] is [i] and the interpolation weight
    of the next sample is 0. *)
Theorem pitchShift_unit_ratio (samples : list Q) :
  f32_alloc_ok (Z.of_nat (length samples)) = true ->
  exists out, pitchShift samples 1 = Some out /\ length out = length samples /\
    forall i, (i < length samples)%nat -> (nth i out 0 == nth i samples 0)%Q.
Proof.
  intros Hn.
  pose proof (proj1 (f32_alloc_ok_iff _) Hn) as [Hn0 Hn4]; unfold MAX_BYTE_LENGTH in Hn4.
  assert (Hr : (0 < 1)%Q) by lra.
  assert (Hp : pitch_len (Z.of_nat (length samples)) 1 = Some (Z.of_nat (length samples)))
    by (apply pitch_len_unit; lia).
  destruct (pitchShift_pos samples 1 _ Hr Hn Hp Hn) as (vs & H1 & H2 & H3).
  rewrite Nat2Z.id in H2.
  exists vs; split; [exact H1|split; [exact H2|]].
  intros i Hi; rewrite <- H2 in Hi; pose proof (H3 i Hi) as E.
  rewrite H2 in Hi.
  assert (Ei : (inject_Z (Z.of_nat i) * 1 == inject_Z (Z.of_nat i))%Q) by ring.
  assert (Hb : b64 (inject_Z (Z.of_nat i) * 1) = Some (b64_round (inject_Z (Z.of_nat i) * 1))).
  { apply b64_finite.
    - rewrite Ei; apply inject_nat_nonneg.
    - rewrite Ei, pow2_Z by lia; rewrite <- Zle_Qle.
      assert (2 ^ 53 <= 2 ^ 1000) by (apply Z.pow_le_mono_r; lia); lia. }
  unfold pitch_sample in E; rewrite Hb in E.
  set (y := b64_round (inject_Z (Z.of_nat i) * 1)) in E.
  assert (Ey : (y == inject_Z (Z.of_nat i))%Q).
  { unfold y; rewrite (b64_round_int _ (Z.of_nat i) ltac:(lia) Ei); exact Ei. }
  assert (Fy : Qfloor y = Z.of_nat i) by (rewrite (Qfloor_comp _ _ Ey); apply Qfloor_Z).
  rewrite Fy in E.
  rewrite (nth_z_nth samples (Z.of_nat i)) in E by lia.
  rewrite (nth_z_nth samples (Z.min (Z.of_nat i + 1) (Z.of_nat (length samples) - 1)))
    in E by lia.
  injection E as E; rewrite <- E, Nat2Z.id, Ey.
  set (b := nth (Z.to_nat (Z.min (Z.of_nat i + 1) (Z.of_nat (length samples) - 1)))
              samples 0%Q).
  ring.
Qed.

Lemma pitchShift_unit_ratio_witness :
  f32_alloc_ok (Z.of_nat (length ([1; 1 # 2; -1]%Q : list Q))) = true /\
  exists out, pitchShift [1; 1 # 2; -1]%Q 1 = Some out /\
    length out = length ([1; 1 # 2; -1]%Q : list Q) /\
    forall i, (i < length ([1; 1 # 2; -1]%Q : list Q))%nat ->
      (nth i out 0 == nth i [1; 1 # 2; -1]%Q 0)%Q.
Proof.
  assert (H : f32_alloc_ok (Z.of_nat (length ([1; 1 # 2; -1]%Q : list Q))) = true) by reflexivity.
  split; [exact H|exact (pitchShift_unit_ratio [1; 1 # 2; -1]%Q H)].
Defined.

Lemma fadeOut_length samples ms : length (fadeOut samples ms) = length samples.
Proof.
  unfold fadeOut; rewrite length_map, length_combine, length_seq; lia.
Qed.

Lemma fadeOut_nth samples ms i :
  (i < length samples)%nat ->
  nth i (fadeOut samples ms) 0%Q =
  (let fadeSamples := Qfloor (inject_Z SAMPLE_RATE * ms / 1000) in
   let start := Z.max 0 (Z.of_nat (length samples) - fadeSamples) in
   if start <=? Z.of_nat i
   then (nth i samples 0 * (1 - inject_Z (Z.of_nat i - start) / inject_Z fadeSamples))%Q
   else nth i samples 0%Q).
Proof.
  intros Hi; unfold fadeOut.
  set (F := Qfloor (inject_Z SAMPLE_RATE * ms / 1000)).
  set (st := Z.max 0 (Z.of_nat (length samples) - F)).
  set (g := fun '(i, x) =>
              if st <=? Z.of_nat i
              then (x * (1 - inject_Z (Z.of_nat i - st) / inject_Z F))%Q else x).
  rewrite (nth_indep _ 0%Q (g (0%nat, 0%Q)))
    by (rewrite length_map, length_combine, length_seq; lia).
  rewrite map_nth, combine_nth by apply length_seq.
  rewrite seq_nth by exact Hi; reflexivity.
Qed.

(** [fadeOut(samples, ms)] keeps the length, leaves every sample before the
    last [Math.floor(44100 * ms / 1000)] ones untouched, and never makes a
    sample louder: [|out[i]| <= |in[i]|] for every index. *)
Theorem fadeOut_shape (samples : list Q) (ms : Q) :
  length (fadeOut samples ms) = length samples /\
  forall i, (i < length samples)%nat ->
    (Z.of_nat i < Z.of_nat (length samples) - Qfloor (inject_Z SAMPLE_RATE * ms / 1000) ->
     nth i (fadeOut samples ms) 0%Q = nth i samples 0%Q) /\
    (Qabs (nth i (fadeOut samples ms) 0%Q) <= Qabs (nth i samples 0%Q))%Q.
Proof.
  split; [apply fadeOut_length|].
  intros i Hi; rewrite fadeOut_nth by exact Hi; cbv zeta.
  set (F := Qfloor (inject_Z SAMPLE_RATE * ms / 1000)).
  set (st := Z.max 0 (Z.of_nat (length samples) - F)).
  set (x := nth i samples 0%Q).
  split.
  - intros Hlt; replace (st <=? Z.of_nat i) with false; [reflexivity|].
    symmetry; apply Z.leb_gt; unfold st; lia.
  - destruct (Z.leb_spec st (Z.of_nat i)) as [Hle|Hgt]; [|apply Qle_refl].
    assert (HF : 0 < F) by (unfold st in Hle; lia).
    assert (Ht0 : (0 <= inject_Z (Z.of_nat i - st) / inject_Z F)%Q).
    { apply Qdiv_pos_nonneg; [unfold Qle, inject_Z; simpl; lia|].
      unfold Qlt, inject_Z; simpl; lia. }
    assert (Ht1 : (inject_Z (Z.of_nat i - st) / inject_Z F <= 1)%Q).
    { apply Qle_shift_div_r; [unfold Qlt, inject_Z; simpl; lia|].
      rewrite Qmult_1_l, <- Zle_Qle; unfold st; lia. }
    set (t := (inject_Z (Z.of_nat i - st) / inject_Z F)%Q) in *.
    rewrite Qabs_Qmult, (Qabs_pos (1 - t)) by lra.
    pose proof (Qabs_nonneg x); nra.
Qed.

Lemma trim_to_length xs T :
  0 <= T -> Z.of_nat (length (trim_to xs T)) = Z.min (Z.of_nat (length xs)) T.
Proof.
  intros HT; unfold trim_to.
  destruct (Z.gtb_spec (Z.of_nat (length xs)) T) as [Hg|Hle].
  - rewrite (proj2 (Z.ltb_ge T 0)) by exact HT.
    rewrite length_firstn; lia.
  - lia.
Qed.

(** One piano variant of [main]: for a positive pitch ratio, a
    non-negative duration, an input a [Float32Array] can hold and a
    [newLen] that [pitchShift] can allocate, the WAV written has
    [44 + 2 m] bytes with [m = min(newLen, trimSamples)], where [newLen]
    and [trimSamples] are the floors of the double quotient and product
    (as long as the RIFF size fits in 32 bits). *)
Theorem make_variant_length (pcm : list Q) (ratio trim t : Q) (newLen : Z) :
  (0 < ratio)%Q -> (0 <= trim)%Q ->
  f32_alloc_ok (Z.of_nat (length pcm)) = true ->
  pitch_len (Z.of_nat (length pcm)) ratio = Some newLen ->
  f32_alloc_ok newLen = true ->
  b64 (inject_Z SAMPLE_RATE * trim) = Some t ->
  36 + 2 * Z.min newLen (Qfloor t) <= 2 ^ 32 - 1 ->
  exists buf, make_variant pcm ratio trim = Some buf /\
    Z.of_nat (length buf) = 44 + 2 * Z.min newLen (Qfloor t).
Proof.
  intros Hr Ht Hn Hp Ha Hb Hsz.
  destruct (pitchShift_pos pcm ratio newLen Hr Hn Hp Ha) as (vs & Hps & Hl & _).
  pose proof (proj1 (f32_alloc_ok_iff _) Ha) as [Hnl _].
  assert (Ht0 : (0 <= t)%Q).
  { rewrite (b64_some _ _ Hb); apply b64_round_nonneg, Qmult_le_0_compat;
      [unfold Qle, inject_Z, SAMPLE_RATE; simpl; lia|exact Ht]. }
  assert (HT : 0 <= Qfloor t) by (apply Qfloor_nonneg; exact Ht0).
  pose proof (trim_to_length vs _ HT) as Htr.
  rewrite Hl, Z2Nat.id in Htr by exact Hnl.
  set (tr := trim_to vs (Qfloor t)) in *.
  set (m := Z.min newLen (Qfloor t)) in *.
  assert (Hfl : Z.of_nat (length (fadeOut tr 30)) = m) by (rewrite fadeOut_length; exact Htr).
  unfold make_variant; rewrite Hps, Hb; fold tr.
  rewrite encodeWav_eq by lia.
  eexists; split; [reflexivity|].
  rewrite length_app, header_length, sample_bytes_length; lia.
Qed.

Lemma make_variant_length_witness :
  ((0 < b64_round (15 # 10))%Q /\ (0 <= b64_round (35 # 100))%Q /\
   f32_alloc_ok (Z.of_nat (length ([1; 2; 3; 4; 5; 6]%Q : list Q))) = true /\
   pitch_len (Z.of_nat (length ([1; 2; 3; 4; 5; 6]%Q : list Q))) (b64_round (15 # 10)) = Some 4 /\
   f32_alloc_ok 4 = true /\
   b64 (inject_Z SAMPLE_RATE * b64_round (35 # 100)) =
     Some (b64_round (inject_Z SAMPLE_RATE * b64_round (35 # 100))) /\
   36 + 2 * Z.min 4 (Qfloor (b64_round (inject_Z SAMPLE_RATE * b64_round (35 # 100))))
     <= 2 ^ 32 - 1) /\
  Qfloor (b64_round (inject_Z SAMPLE_RATE * b64_round (35 # 100))) = 15434 /\
  exists buf, make_variant [1; 2; 3; 4; 5; 6]%Q (b64_round (15 # 10)) (b64_round (35 # 100))
                = Some buf /\
    Z.of_nat (length buf) =
    44 + 2 * Z.min 4 (Qfloor (b64_round (inject_Z SAMPLE_RATE * b64_round (35 # 100)))).
Proof.
  assert (H1 : (0 < b64_round (15 # 10))%Q) by (vm_compute; reflexivity).
  assert (H2 : (0 <= b64_round (35 # 100))%Q) by (apply Qle_bool_iff; vm_compute; reflexivity).
  assert (H3 : f32_alloc_ok (Z.of_nat (length ([1; 2; 3; 4; 5; 6]%Q : list Q))) = true) by reflexivity.
  assert (H4 : pitch_len (Z.of_nat (length ([1; 2; 3; 4; 5; 6]%Q : list Q))) (b64_round (15 # 10)) = Some 4)
    by (vm_compute; reflexivity).
  assert (H5 : f32_alloc_ok 4 = true) by reflexivity.
  assert (H6 : b64 (inject_Z SAMPLE_RATE * b64_round (35 # 100)) =
     Some (b64_round (inject_Z SAMPLE_RATE * b64_round (35 # 100)))) by (vm_compute; reflexivity).
  assert (H7 : 36 + 2 * Z.min 4 (Qfloor (b64_round (inject_Z SAMPLE_RATE * b64_round (35 # 100))))
     <= 2 ^ 32 - 1) by (vm_compute; discriminate).
  split; [repeat split; assumption|].
  split; [vm_compute; reflexivity|].
  exact (make_variant_length ([1; 2; 3; 4; 5; 6]%Q : list Q) (b64_round (15 # 10)) (b64_round (35 # 100))
           _ 4 H1 H2 H3 H4 H5 H6 H7).
Defined.

End PianoFacts.

Module MockInvokeFacts.
Import Mock.
Open Scope string_scope.

Lemma invoke_create a s : invoke "create_custom_pack" a s = create_custom_pack a s.
Proof. reflexivity. Qed.
Lemma invoke_import a s : invoke "import_sound_file" a s = import_sound_file a s.
Proof. reflexivity. Qed.
Lemma invoke_get_slots a s : invoke "get_custom_pack_slots" a s = get_custom_pack_slots a s.
Proof. reflexivity. Qed.
Lemma invoke_remove a s : invoke "remove_sound_slot" a s = remove_sound_slot a s.
Proof. reflexivity. Qed.
Lemma invoke_delete a s : invoke "delete_custom_pack" a s = delete_custom_pack a s.
Proof. reflexivity. Qed.
Lemma invoke_get_active a s :
  invoke "get_active_pack_id" a s = (Returns (VStr (activePackId s)), s).
Proof. reflexivity. Qed.

Lemma find_bundled_index_users i us :
  Forall (fun p => is_user_source p = true) us ->
  find_bundled_index (S i) us = None.
Proof.
  revert i; induction us as [|u us IH]; intros i Hus; [reflexivity|].
  inversion Hus as [|? ? Hu Hus']; subst.
  cbn [find_bundled_index]; rewrite Hu; cbn [andb negb]; rewrite andb_false_r.
  apply IH; exact Hus'.
Qed.

Lemma find_bundled_index_block i us b r :
  Forall (fun p => is_user_source p = true) us -> is_user_source b = false ->
  find_bundled_index (S i) (us ++ b :: r)%list = Some (S i + length us)%nat.
Proof.
  revert i; induction us as [|u us IH]; intros i Hus Hb.
  - cbn [app find_bundled_index length]; rewrite Hb; cbn; f_equal; lia.
  - inversion Hus as [|? ? Hu Hus']; subst.
    cbn [app find_bundled_index]; rewrite Hu; cbn [negb]; rewrite andb_false_r.
    rewrite (IH (S i) Hus' Hb); cbn [length]; f_equal; lia.
Qed.

Lemma firstn_length_app {A} (l m : list A) : firstn (length l) (l ++ m) = l.
Proof. induction l; cbn; [reflexivity | now rewrite IHl]. Qed.

Lemma skipn_length_app {A} (l m : list A) : skipn (length l) (l ++ m) = m.
Proof. induction l; cbn; [reflexivity | exact IHl]. Qed.

Lemma slots_get_set m k v :
  k <> "__proto__" -> slots_get (slots_set m k v) k = Own v.
Proof.
  intros Hk; unfold slots_get, slots_set.
  rewrite (proj2 (String.eqb_neq _ _) Hk); cbn [find fst]; rewrite String.eqb_refl.
  reflexivity.
Qed.

(** The packs a created pack is placed among, and what it holds. *)
Lemma create_custom_pack_spec s a :
  nextCustomId s <> "__proto__" ->
  exists idx,
    create_custom_pack a s =
    (Returns (VPack {| pi_id := nextCustomId s;
                       pi_name := match a_name a with Some n => n | None => "Untitled" end;
                       pi_author := "You"; pi_description := EmptyString;
                       pi_source := Some "user" |}),
     with_slots (slots_set (customSlots s) (nextCustomId s) new_pack_slots)
       (with_packs
          match idx with
          | None => (packs s ++ [{| pi_id := nextCustomId s;
                       pi_name := match a_name a with Some n => n | None => "Untitled" end;
                       pi_author := "You"; pi_description := EmptyString;
                       pi_source := Some "user" |}])%list
          | Some i => (firstn i (packs s) ++ {| pi_id := nextCustomId s;
                       pi_name := match a_name a with Some n => n | None => "Untitled" end;
                       pi_author := "You"; pi_description := EmptyString;
                       pi_source := Some "user" |} :: skipn i (packs s))%list
          end s)) /\ idx = find_bundled_index 0 (packs s).
Proof.
  intros Hid; exists (find_bundled_index 0 (packs s)); split; [|reflexivity].
  unfold create_custom_pack; cbv zeta.
  rewrite (proj2 (String.eqb_neq _ _) Hid); reflexivity.
Qed.

(** create_custom_pack: the new pack goes right after the leading block of
    user packs that follows the first pack. *)
Theorem create_custom_pack_placement s a d us bs :
  packs s = d :: (us ++ bs)%list ->
  Forall (fun p => is_user_source p = true) us ->
  (bs = [] \/ exists b r, bs = b :: r /\ is_user_source b = false) ->
  nextCustomId s <> "__proto__" ->
  exists p s',
    invoke "create_custom_pack" a s = (Returns (VPack p), s') /\
    packs s' = d :: (us ++ p :: bs)%list /\
    pi_id p = nextCustomId s /\ pi_source p = Some "user" /\
    pi_name p = match a_name a with Some n => n | None => "Untitled" end /\
    slots_get (customSlots s') (nextCustomId s) = Own new_pack_slots /\
    nextCustomId s' = nextCustomId s.
Proof.
  intros Hps Hus Hbs Hid.
  rewrite invoke_create.
  destruct (create_custom_pack_spec s a Hid) as (idx & -> & Hidx).
  do 2 eexists; split; [reflexivity|].
  cbn [packs with_slots with_packs customSlots nextCustomId pi_id pi_source pi_name].
  split; [|split; [reflexivity|split; [reflexivity|split; [reflexivity|split]]]];
    [| apply slots_get_set; exact Hid | reflexivity].
  rewrite Hps in Hidx |- *; subst idx.
  change (find_bundled_index 0 (d :: (us ++ bs)%list))
    with (find_bundled_index 1 (us ++ bs)%list).
  destruct Hbs as [-> | (b & r & -> & Hb)].
  - rewrite app_nil_r, find_bundled_index_users by exact Hus.
    reflexivity.
  - rewrite (find_bundled_index_block 0 us b r Hus Hb).
    change (1 + length us)%nat with (S (length us)).
    cbn [firstn skipn].
    rewrite firstn_length_app, skipn_length_app; reflexivity.
Qed.

Lemma create_custom_pack_count s a :
  nextCustomId s <> "__proto__" ->
  exists p s',
    invoke "create_custom_pack" a s = (Returns (VPack p), s') /\
    pi_id p = nextCustomId s /\ nextCustomId s' = nextCustomId s /\
    count_occ string_dec (map pi_id (packs s')) (nextCustomId s)
    = S (count_occ string_dec (map pi_id (packs s)) (nextCustomId s)).
Proof.
  intros Hid; rewrite invoke_create.
  destruct (create_custom_pack_spec s a Hid) as (idx & -> & _).
  do 2 eexists; split; [reflexivity|].
  split; [reflexivity|split; [reflexivity|]].
  cbn [packs with_slots with_packs].
  match goal with
  | |- count_occ _ (map _ (match _ with None => _ | Some _ => _ end)) ?k = _ =>
      set (k' := k)
  end.
  match goal with
  | |- context [ (_ ++ [?p])%list ] => set (p' := p)
  end.
  assert (Hperm : Permutation
            (match idx with None => (packs s ++ [p'])%list
             | Some i => (firstn i (packs s) ++ p' :: skipn i (packs s))%list end)
            (p' :: packs s)).
  { destruct idx as [i|].
    - rewrite <- Permutation_middle, firstn_skipn; reflexivity.
    - symmetry; apply Permutation_cons_append. }
  apply (Permutation_map pi_id) in Hperm.
  rewrite (proj1 (Permutation_count_occ string_dec _ _) Hperm k').
  cbn [map]; apply count_occ_cons_eq; reflexivity.
Qed.

(** Two create_custom_pack calls in a row, with any arguments, return two
    packs with the same id: the id is never advanced.  This holds for every
    [nextCustomId] other than ["__proto__"] (that key is not modelled: the
    mock would write the slots through the prototype accessor). *)
Theorem create_custom_pack_twice s a1 a2 :
  nextCustomId s <> "__proto__" ->
  exists p1 s1 p2 s2,
    invoke "create_custom_pack" a1 s = (Returns (VPack p1), s1) /\
    invoke "create_custom_pack" a2 s1 = (Returns (VPack p2), s2) /\
    pi_id p1 = nextCustomId s /\ pi_id p2 = nextCustomId s /\
    count_occ string_dec (map pi_id (packs s2)) (nextCustomId s)
    = (2 + count_occ string_dec (map pi_id (packs s)) (nextCustomId s))%nat.
Proof.
  intros Hid.
  destruct (create_custom_pack_count s a1 Hid) as (p1 & s1 & H1 & Hp1 & Hn1 & Hc1).
  assert (Hid1 : nextCustomId s1 <> "__proto__") by (rewrite Hn1; exact Hid).
  destruct (create_custom_pack_count s1 a2 Hid1) as (p2 & s2 & H2 & Hp2 & Hn2 & Hc2).
  exists p1, s1, p2, s2; rewrite Hn1 in Hp2, Hc2.
  repeat split; try assumption.
  rewrite Hc2, Hc1; reflexivity.
Qed.

Lemma create_custom_pack_twice_witness :
  nextCustomId defaultState <> "__proto__" /\
  exists p1 s1 p2 s2,
    invoke "create_custom_pack" (Build_Args None None None None None) defaultState
      = (Returns (VPack p1), s1) /\
    invoke "create_custom_pack" (Build_Args None None (Some "Mine") None None) s1
      = (Returns (VPack p2), s2) /\
    pi_id p1 = nextCustomId defaultState /\ pi_id p2 = nextCustomId defaultState /\
    count_occ string_dec (map pi_id (packs s2)) (nextCustomId defaultState)
    = (2 + count_occ string_dec (map pi_id (packs defaultState))
             (nextCustomId defaultState))%nat.
Proof.
  assert (H : nextCustomId defaultState <> "__proto__") by discriminate.
  split; [exact H|].
  exact (create_custom_pack_twice defaultState (Build_Args None None None None None)
           (Build_Args None None (Some "Mine") None None) H).
Defined.

Lemma create_custom_pack_placement_witness :
  packs defaultState =
    nth 0 DEFAULT_PACKS (Build_PackInfo EmptyString EmptyString EmptyString EmptyString None)
    :: ([nth 1 DEFAULT_PACKS (Build_PackInfo EmptyString EmptyString EmptyString EmptyString None)]
        ++ [nth 2 DEFAULT_PACKS (Build_PackInfo EmptyString EmptyString EmptyString EmptyString None)])%list /\
  exists p s',
    invoke "create_custom_pack" (Build_Args None None (Some "Mine") None None) defaultState
      = (Returns (VPack p), s') /\
    packs s' = nth 0 DEFAULT_PACKS (Build_PackInfo EmptyString EmptyString EmptyString EmptyString None)
      :: ([nth 1 DEFAULT_PACKS (Build_PackInfo EmptyString EmptyString EmptyString EmptyString None)]
          ++ p :: [nth 2 DEFAULT_PACKS (Build_PackInfo EmptyString EmptyString EmptyString EmptyString None)])%list /\
    pi_id p = nextCustomId defaultState /\ pi_source p = Some "user" /\
    pi_name p = "Mine" /\
    slots_get (customSlots s') (nextCustomId defaultState) = Own new_pack_slots /\
    nextCustomId s' = nextCustomId defaultState.
Proof.
  split; [reflexivity|].
  apply create_custom_pack_placement.
  - reflexivity.
  - repeat constructor.
  - right; do 2 eexists; split; reflexivity.
  - discriminate.
Defined.


Lemma slots_get_update m k f ss :
  slots_get m k = Own ss -> slots_get (slots_update m k f) k = Own (f ss).
Proof.
  unfold slots_get; destruct (String.eqb k "__proto__"); [discriminate|].
  induction m as [|[k' ss'] r IH]; cbn [find slots_update fst].
  - destruct (is_proto_prop k); discriminate.
  - destruct (String.eqb k' k) eqn:E; cbn [find fst]; rewrite E; [congruence|].
    exact IH.
Qed.

Lemma set_file_name_slots sl f ss :
  map si_slot (set_file_name sl f ss) = map si_slot ss /\
  map si_label (set_file_name sl f ss) = map si_label ss.
Proof.
  induction ss as [|x r IH]; [split; reflexivity|].
  cbn [set_file_name]; destruct (slot_is sl x); cbn [map si_slot si_label];
    [split; reflexivity|].
  destruct IH as [IH1 IH2]; rewrite IH1, IH2; split; reflexivity.
Qed.

Lemma set_file_name_find_same sl f ss x :
  find (fun y => String.eqb (si_slot y) sl) ss = Some x ->
  find (fun y => String.eqb (si_slot y) sl) (set_file_name (Some sl) f ss) =
  Some {| si_slot := si_slot x; si_label := si_label x; si_file_name := f |}.
Proof.
  induction ss as [|y r IH]; cbn [find set_file_name slot_is]; [discriminate|].
  destruct (String.eqb (si_slot y) sl) eqn:E; cbn [find si_slot].
  - rewrite E; congruence.
  - rewrite E; exact IH.
Qed.

Lemma set_file_name_find_other sl sl' f ss :
  sl' <> sl ->
  find (fun y => String.eqb (si_slot y) sl') (set_file_name (Some sl) f ss) =
  find (fun y => String.eqb (si_slot y) sl') ss.
Proof.
  intros Hne; induction ss as [|y r IH]; cbn [find set_file_name slot_is];
    [reflexivity|].
  destruct (String.eqb (si_slot y) sl) eqn:E; cbn [find si_slot].
  - apply String.eqb_eq in E; subst sl.
    destruct (String.eqb_spec (si_slot y) sl') as [E'|_]; [congruence|reflexivity].
  - destruct (String.eqb (si_slot y) sl'); [reflexivity | exact IH].
Qed.

Lemma find_slot_in sl ss :
  In sl (map si_slot ss) -> exists x, find (fun y => String.eqb (si_slot y) sl) ss = Some x.
Proof.
  induction ss as [|y r IH]; cbn [In map find]; [contradiction|].
  intros [Hy|Hr].
  - exists y; rewrite Hy, String.eqb_refl; reflexivity.
  - destruct (String.eqb (si_slot y) sl); [eexists; reflexivity | exact (IH Hr)].
Qed.

(** import_sound_file on an existing pack and slot: afterwards
    get_custom_pack_slots returns the same slots, and the first one named
    [sl] holds the file name of the path while every other name finds what
    it found before. *)
Theorem import_sound_file_sets_slot s a pid sl fp ss :
  a_packId a = Some pid -> a_slot a = Some sl -> a_filePath a = Some fp ->
  slots_get (customSlots s) pid = Own ss -> In sl (map si_slot ss) ->
  exists s',
    invoke "import_sound_file" a s = (Returns VNull, s') /\
    exists ss',
      invoke "get_custom_pack_slots" a s' = (Returns (VSlots ss'), s') /\
      map si_slot ss' = map si_slot ss /\ map si_label ss' = map si_label ss /\
      (exists x,
          find (fun y => String.eqb (si_slot y) sl) ss = Some x /\
          find (fun y => String.eqb (si_slot y) sl) ss' =
          Some {| si_slot := si_slot x; si_label := si_label x;
                  si_file_name := Some (file_name_of fp) |}) /\
      (forall sl', sl' <> sl ->
         find (fun y => String.eqb (si_slot y) sl') ss' =
         find (fun y => String.eqb (si_slot y) sl') ss).
Proof.
  intros Hp Hs Hf Hg Hin.
  rewrite invoke_import; unfold import_sound_file; rewrite Hf, Hp; cbn [js_key].
  rewrite Hg, Hs.
  eexists; split; [reflexivity|].
  exists (set_file_name (Some sl) (Some (file_name_of fp)) ss).
  rewrite invoke_get_slots; unfold get_custom_pack_slots; rewrite Hp; cbn [js_key].
  cbn [customSlots with_slots].
  rewrite (slots_get_update _ _ _ _ Hg).
  destruct (set_file_name_slots (Some sl) (Some (file_name_of fp)) ss) as [H1 H2].
  split; [reflexivity|split; [exact H1|split; [exact H2|split]]].
  - destruct (find_slot_in sl ss Hin) as [x Hx].
    exists x; split; [exact Hx|]. apply set_file_name_find_same; exact Hx.
  - intros sl' Hne; apply set_file_name_find_other; exact Hne.
Qed.

Lemma import_sound_file_sets_slot_witness :
  exists ss',
    invoke "get_custom_pack_slots"
      (Build_Args None (Some "my-custom") None (Some "space") (Some "C:\x\click2.wav"))
      (snd (invoke "import_sound_file"
              (Build_Args None (Some "my-custom") None (Some "space")
                 (Some "C:\x\click2.wav")) defaultState)) =
      (Returns (VSlots ss'),
       snd (invoke "import_sound_file"
              (Build_Args None (Some "my-custom") None (Some "space")
                 (Some "C:\x\click2.wav")) defaultState)) /\
    find (fun y => String.eqb (si_slot y) "space") ss' =
    Some {| si_slot := "space"; si_label := "Space";
            si_file_name := Some (file_name_of "C:\x\click2.wav") |}.
Proof.
  destruct (import_sound_file_sets_slot defaultState
              (Build_Args None (Some "my-custom") None (Some "space")
                 (Some "C:\x\click2.wav"))
              "my-custom" "space" "C:\x\click2.wav"
              (map (fun '(slot, label) =>
                      {| si_slot := slot; si_label := label;
                         si_file_name := if String.eqb slot "default"
                                         then Some "click.wav" else None |})
                   ALL_SLOTS)
              eq_refl eq_refl eq_refl eq_refl)
    as (s' & Hi & ss' & Hg & _ & _ & (x & Hx & Hx') & _).
  - cbn; tauto.
  - rewrite Hi; cbn [snd]. exists ss'; split; [exact Hg|].
    rewrite Hx'; cbn in Hx; injection Hx as <-; reflexivity.
Defined.

Lemma split_slash_aux_nonempty cs cur : split_slash_aux cs cur <> [].
Proof.
  revert cur; induction cs as [|c r IH]; intros cur; cbn [split_slash_aux];
    [discriminate|].
  destruct (Ascii.eqb c slash); [discriminate | apply IH].
Qed.

Lemma last_cons_nonempty {A} (x : A) l d : l <> [] -> last (x :: l) d = last l d.
Proof. destruct l; [contradiction | reflexivity]. Qed.

Lemma split_slash_aux_last cs cur :
  Forall (fun c => c <> slash) cur ->
  exists pre,
    (rev cur ++ cs)%list =
      (pre ++ list_ascii_of_string (last (split_slash_aux cs cur) EmptyString))%list /\
    (pre = [] \/ exists pre', pre = (pre' ++ [slash])%list) /\
    Forall (fun c => c <> slash)
      (list_ascii_of_string (last (split_slash_aux cs cur) EmptyString)).
Proof.
  revert cur; induction cs as [|c r IH]; intros cur Hcur; cbn [split_slash_aux].
  - exists []; cbn [last]; rewrite list_ascii_of_string_of_list_ascii, app_nil_r.
    split; [reflexivity|split; [left; reflexivity|]].
    apply Forall_rev; exact Hcur.
  - destruct (Ascii.eqb_spec c slash) as [->|Hc].
    + rewrite last_cons_nonempty by apply split_slash_aux_nonempty.
      destruct (IH [] (Forall_nil _)) as (pre & Heq & Hpre & Hseg).
      cbn [rev app] in Heq.
      exists (rev cur ++ slash :: pre)%list; split; [|split; [right|exact Hseg]].
      * rewrite <- app_assoc; cbn [app]; rewrite <- Heq; reflexivity.
      * destruct Hpre as [->|(pre' & ->)].
        -- exists (rev cur); reflexivity.
        -- exists (rev cur ++ slash :: pre')%list.
           rewrite <- app_assoc; reflexivity.
    + destruct (IH (c :: cur) (@Forall_cons _ (fun c => c <> slash) c cur Hc Hcur)) as (pre & Heq & Hpre & Hseg).
      exists pre; split; [|split; assumption].
      rewrite <- Heq; cbn [rev]; rewrite <- app_assoc; reflexivity.
Qed.

Definition sep_of (c : ascii) : ascii :=
  if Ascii.eqb c backslash then slash else c.

(** [filePath.replace(/\\/g, "/").split("/").pop()] is the part of the path
    after its last slash or backslash: the path is a prefix followed by the
    result, the prefix is empty or ends in a separator, and the result
    holds no separator. *)
Theorem file_name_of_last_segment fp :
  exists pre,
    list_ascii_of_string fp = (pre ++ list_ascii_of_string (file_name_of fp))%list /\
    (pre = [] \/ exists pre' c, pre = (pre' ++ [c])%list /\ (c = slash \/ c = backslash)) /\
    Forall (fun c => c <> slash /\ c <> backslash) (list_ascii_of_string (file_name_of fp)).
Proof.
  unfold file_name_of, split_slash, replace_backslashes.
  rewrite list_ascii_of_string_of_list_ascii.
  destruct (split_slash_aux_last
              (map (fun c => if Ascii.eqb c backslash then slash else c)
                   (list_ascii_of_string fp)) [] (Forall_nil _))
    as (pre & Heq & Hpre & Hseg).
  cbn [rev app] in Heq.
  apply map_eq_app in Heq as (c1 & c2 & Hfp & Hc1 & Hc2).
  assert (Hc2' : Forall (fun c => c <> slash /\ c <> backslash) c2).
  { rewrite <- Hc2 in Hseg; rewrite Forall_forall in Hseg |- *; intros c Hin.
    specialize (Hseg _ (in_map (fun c => if Ascii.eqb c backslash then slash else c)
                          _ _ Hin)); cbv beta in Hseg.
    destruct (Ascii.eqb c backslash) eqn:Eb; [contradiction|].
    apply Ascii.eqb_neq in Eb; split; assumption. }
  assert (Hid : c2 = list_ascii_of_string (last (split_slash_aux
     (map (fun c => if Ascii.eqb c backslash then slash else c)
        (list_ascii_of_string fp)) []) EmptyString)).
  { rewrite <- Hc2; symmetry; rewrite <- (map_id c2) at 2; apply map_ext_in.
    intros c Hin; rewrite Forall_forall in Hc2'; destruct (Hc2' c Hin) as [_ Hb].
    destruct (Ascii.eqb_spec c backslash); [contradiction | reflexivity]. }
  exists c1; split; [rewrite <- Hid; exact Hfp|split; [|rewrite <- Hid; exact Hc2']].
  destruct Hpre as [->|(pre' & ->)].
  - left; destruct c1; [reflexivity | discriminate].
  - right; apply map_eq_app in Hc1 as (d1 & d2 & Hd & Hd1 & Hd2).
    destruct d2 as [|c [|? ?]]; try discriminate.
    injection Hd2 as Hc; exists d1, c; split; [exact Hd|].
    destruct (Ascii.eqb_spec c backslash) as [->|Hb]; [right; reflexivity|].
    left; exact Hc.
Qed.

Lemma set_file_name_twice sl f g ss :
  set_file_name sl g (set_file_name sl f ss) = set_file_name sl g ss.
Proof.
  induction ss as [|x r IH]; cbn [set_file_name]; [reflexivity|].
  destruct (slot_is sl x) eqn:E; cbn [set_file_name].
  - destruct sl as [s|]; [|discriminate]; cbn [slot_is si_slot] in *; rewrite E.
    reflexivity.
  - rewrite E, IH; reflexivity.
Qed.

Lemma slots_update_twice m k sl f g :
  slots_update (slots_update m k (set_file_name sl f)) k (set_file_name sl g) =
  slots_update m k (set_file_name sl g).
Proof.
  induction m as [|[k' ss] r IH]; cbn [slots_update]; [reflexivity|].
  destruct (String.eqb k' k) eqn:E; cbn [slots_update]; rewrite E.
  - rewrite set_file_name_twice; reflexivity.
  - rewrite IH; reflexivity.
Qed.

(** remove_sound_slot after import_sound_file with the same arguments gives
    the reply and state of remove_sound_slot alone: the file name import set
    is cleared again. *)
Theorem import_then_remove s a :
  invoke "remove_sound_slot" a (snd (invoke "import_sound_file" a s)) =
  invoke "remove_sound_slot" a s.
Proof.
  rewrite invoke_import, (invoke_remove a s), invoke_remove; unfold import_sound_file, remove_sound_slot.
  cbv zeta; destruct (a_filePath a) as [fp|]; cbn [snd]; [|reflexivity].
  destruct (slots_get (customSlots s) (js_key (a_packId a))) as [ss| |] eqn:E;
    cbn [snd]; [|rewrite E; reflexivity|rewrite E; reflexivity].
  cbn [customSlots with_slots].
  rewrite (slots_get_update _ _ _ _ E), slots_update_twice; reflexivity.
Qed.

Lemma slots_get_absent m k :
  ~ In k (map fst m) -> is_proto_prop k = false -> slots_get m k = Absent.
Proof.
  intros Hin Hp; unfold slots_get.
  destruct (String.eqb_spec k "__proto__") as [->|_]; [discriminate|].
  destruct (find (fun e => String.eqb (fst e) k) m) as [[k' ss]|] eqn:F.
  - apply find_some in F as [Hm Hk]; apply String.eqb_eq in Hk; cbn [fst] in Hk.
    subst k'; exfalso; apply Hin, (in_map fst _ _ Hm).
  - rewrite Hp; reflexivity.
Qed.

(** The slot commands on a pack id that is not a key of [customSlots] (and
    not a property every object inherits) do nothing: get_custom_pack_slots
    returns an empty list, remove_sound_slot and import_sound_file return
    null, and the state is unchanged. *)
Theorem slot_commands_unknown_pack s a :
  ~ In (js_key (a_packId a)) (map fst (customSlots s)) ->
  is_proto_prop (js_key (a_packId a)) = false ->
  invoke "get_custom_pack_slots" a s = (Returns (VSlots []), s) /\
  invoke "remove_sound_slot" a s = (Returns VNull, s) /\
  (forall fp, a_filePath a = Some fp ->
     invoke "import_sound_file" a s = (Returns VNull, s)).
Proof.
  intros Hin Hp; pose proof (slots_get_absent _ _ Hin Hp) as E.
  rewrite invoke_get_slots, invoke_remove; unfold get_custom_pack_slots, remove_sound_slot.
  rewrite E; split; [reflexivity|split; [reflexivity|]].
  intros fp Hf; rewrite invoke_import; unfold import_sound_file; rewrite Hf, E.
  reflexivity.
Qed.

Lemma slot_commands_unknown_pack_witness :
  (~ In (js_key (Some "nope")) (map fst (customSlots defaultState)) /\
   is_proto_prop (js_key (Some "nope")) = false) /\
  invoke "get_custom_pack_slots" (Build_Args None (Some "nope") None (Some "space") None)
    defaultState = (Returns (VSlots []), defaultState).
Proof.
  assert (H1 : ~ In (js_key (Some "nope")) (map fst (customSlots defaultState)))
    by (cbn; intros [H|[]]; discriminate).
  assert (H2 : is_proto_prop (js_key (Some "nope")) = false) by reflexivity.
  split; [split; assumption|].
  exact (proj1 (slot_commands_unknown_pack defaultState
                  (Build_Args None (Some "nope") None (Some "space") None) H1 H2)).
Defined.

(** A pack id naming a property every object inherits ([toString],
    [constructor], ...) that is not an own key, or ["__proto__"] in any
    case, makes the slot commands throw and leaves the state unchanged. *)
Theorem slot_commands_prototype_key s a :
  is_proto_prop (js_key (a_packId a)) = true ->
  (js_key (a_packId a) = "__proto__" \/
   ~ In (js_key (a_packId a)) (map fst (customSlots s))) ->
  invoke "get_custom_pack_slots" a s = (Throws, s) /\
  invoke "remove_sound_slot" a s = (Throws, s) /\
  (forall fp, a_filePath a = Some fp -> invoke "import_sound_file" a s = (Throws, s)).
Proof.
  intros Hp Hk.
  assert (E : slots_get (customSlots s) (js_key (a_packId a)) = Inherited).
  { unfold slots_get; destruct Hk as [Hk|Hin]; [rewrite Hk; reflexivity|].
    destruct (String.eqb _ "__proto__"); [reflexivity|].
    destruct (find _ _) as [[k' ss]|] eqn:F; [|rewrite Hp; reflexivity].
    apply find_some in F as [Hm Hk]; apply String.eqb_eq in Hk; cbn [fst] in Hk.
    subst k'; exfalso; apply Hin, (in_map fst _ _ Hm). }
  rewrite invoke_get_slots, invoke_remove; unfold get_custom_pack_slots, remove_sound_slot.
  rewrite E; split; [reflexivity|split; [reflexivity|]].
  intros fp Hf; rewrite invoke_import; unfold import_sound_file; rewrite Hf, E.
  reflexivity.
Qed.

Lemma slot_commands_prototype_key_witness :
  (is_proto_prop (js_key (Some "toString")) = true /\
   ~ In (js_key (Some "toString")) (map fst (customSlots defaultState))) /\
  invoke "get_custom_pack_slots" (Build_Args None (Some "toString") None None None)
    defaultState = (Throws, defaultState).
Proof.
  assert (H1 : is_proto_prop (js_key (Some "toString")) = true) by reflexivity.
  assert (H2 : ~ In (js_key (Some "toString")) (map fst (customSlots defaultState)))
    by (cbn; intros [H|[]]; discriminate).
  split; [split; assumption|].
  exact (proj1 (slot_commands_prototype_key defaultState
                  (Build_Args None (Some "toString") None None None) H1 (or_intror H2))).
Defined.

Lemma find_slots_delete m k :
  find (fun e => String.eqb (fst e) k) (slots_delete m k) = None.
Proof.
  unfold slots_delete; induction m as [|e r IH]; cbn [filter]; [reflexivity|].
  destruct (String.eqb (fst e) k) eqn:E; cbn [negb find]; [exact IH|].
  rewrite E; exact IH.
Qed.

(** delete_custom_pack, for any pack id [k], removes every pack with id [k],
    keeps the other packs, and does not touch [activePackId]: after
    deleting the active pack, get_active_pack_id still returns its id.  When
    [k] is not a property inherited from [Object.prototype] (such as
    ["toString"]), the pack's slots are gone too: get_custom_pack_slots
    returns an empty list. *)
Theorem delete_custom_pack_effect s a k :
  a_packId a = Some k ->
  exists s',
    invoke "delete_custom_pack" a s = (Returns VNull, s') /\
    ~ In k (map pi_id (packs s')) /\
    (forall p, In p (packs s) -> pi_id p <> k -> In p (packs s')) /\
    invoke "get_active_pack_id" a s' = (Returns (VStr (activePackId s)), s') /\
    (is_proto_prop k = false ->
     invoke "get_custom_pack_slots" a s' = (Returns (VSlots []), s')).
Proof.
  intros Hk.
  rewrite invoke_delete; unfold delete_custom_pack; rewrite Hk; cbn [js_key].
  eexists; split; [reflexivity|].
  cbn [packs customSlots activePackId with_slots with_packs].
  split; [|split; [|split]].
  - intros Hin; apply in_map_iff in Hin as (p & Hpk & Hin).
    apply filter_In in Hin as [_ Hd]; cbn [id_differs] in Hd.
    rewrite Hpk, String.eqb_refl in Hd; discriminate.
  - intros p Hin Hne; apply filter_In; split; [exact Hin|].
    cbn [id_differs]; destruct (String.eqb_spec (pi_id p) k); [contradiction|reflexivity].
  - rewrite invoke_get_active; reflexivity.
  - intros Hp.
    rewrite invoke_get_slots; unfold get_custom_pack_slots; rewrite Hk; cbn [js_key].
    cbn [customSlots with_slots]; unfold slots_get.
    destruct (String.eqb_spec k "__proto__") as [->|_]; [discriminate|].
    rewrite find_slots_delete, Hp; reflexivity.
Qed.

Lemma delete_custom_pack_effect_witness :
  a_packId (Build_Args None (Some "default") None None None) = Some "default" /\
  exists s',
    invoke "delete_custom_pack" (Build_Args None (Some "default") None None None)
      defaultState = (Returns VNull, s') /\
    ~ In "default" (map pi_id (packs s')) /\
    invoke "get_active_pack_id" (Build_Args None (Some "default") None None None) s'
      = (Returns (VStr "default"), s') /\
    invoke "get_custom_pack_slots" (Build_Args None (Some "default") None None None) s'
      = (Returns (VSlots []), s').
Proof.
  assert (H1 : a_packId (Build_Args None (Some "default") None None None) = Some "default")
    by reflexivity.
  split; [exact H1|].
  destruct (delete_custom_pack_effect defaultState
              (Build_Args None (Some "default") None None None) "default" H1)
    as (s' & Hd & Hn & _ & Ha & Hg).
  exists s'; split; [exact Hd|split; [exact Hn|split; [exact Ha|apply Hg; reflexivity]]].
Defined.

Definition MOCK_COMMANDS : list string :=
  [ "get_enabled"; "get_volume"; "get_sound_packs"; "get_active_pack_id";
    "toggle_sound"; "set_volume"; "set_active_pack"; "play_sound";
    "create_custom_pack"; "import_sound_file"; "get_custom_pack_slots";
    "remove_sound_slot"; "delete_custom_pack" ].

(** What each command may change: no command changes [nextCustomId];
    [enabled] changes only under toggle_sound, [volume] only under
    set_volume, [activePackId] only under set_active_pack, [packs] only
    under create_custom_pack and delete_custom_pack, [customSlots] only
    under the four pack editing commands; any other command name returns
    null and leaves the state as it is. *)
Theorem invoke_frame cmd a s :
  nextCustomId (snd (invoke cmd a s)) = nextCustomId s /\
  (cmd <> "toggle_sound" -> enabled (snd (invoke cmd a s)) = enabled s) /\
  (cmd <> "set_volume" -> volume (snd (invoke cmd a s)) = volume s) /\
  (cmd <> "set_active_pack" -> activePackId (snd (invoke cmd a s)) = activePackId s) /\
  (cmd <> "create_custom_pack" -> cmd <> "delete_custom_pack" ->
   packs (snd (invoke cmd a s)) = packs s) /\
  (~ In cmd ["create_custom_pack"; "import_sound_file"; "remove_sound_slot";
             "delete_custom_pack"] ->
   customSlots (snd (invoke cmd a s)) = customSlots s) /\
  (~ In cmd MOCK_COMMANDS -> invoke cmd a s = (Returns VNull, s)).
Proof.
  unfold invoke, MOCK_COMMANDS.
  repeat match goal with
         | |- context [String.eqb cmd ?c] =>
             destruct (String.eqb_spec cmd c) as [->|?]
         end;
  unfold create_custom_pack, import_sound_file, get_custom_pack_slots,
    remove_sound_slot, delete_custom_pack, toggle_sound, get_enabled; cbv zeta;
  repeat match goal with
         | |- context [match ?x with _ => _ end] => destruct x
         end;
  cbn [snd packs customSlots nextCustomId enabled volume activePackId
       with_slots with_packs with_volume with_active In];
  intuition congruence.
Qed.

End MockInvokeFacts.
